(** * Ghost Path: the link rewriter and the prefix concealer of main.ts

    A shallow embedding of the two engines of the plugin:
    - [handleEditorChange] (lines 226-316), which rewrites short wikilinks
      [[Note]] to full-path wikilinks [[folder/Note]] and remaps the cursor;
    - [buildDecorations] (lines 131-167), which computes the ranges of the
      folder prefixes hidden in the editor.

    JavaScript strings are sequences of UTF-16 code units; a string is a
    list of code units and every index is an index into that list. *)

From Stdlib Require Import String Ascii.
From Stdlib Require Import List Arith ZArith NArith Lia Bool Sorted.
From Equations Require Import Equations.
Import ListNotations.

(* [length] is the length of a list throughout. *)
Abbreviation length := Datatypes.length.

(** ** Strings *)

Definition char := N.
Definition text := list char.

Definition LBRACKET : char := 91%N.   (* '[' *)
Definition RBRACKET : char := 93%N.   (* ']' *)
Definition SLASH : char := 47%N.      (* '/' *)
Arguments LBRACKET : simpl never.
Arguments RBRACKET : simpl never.
Arguments SLASH : simpl never.

(** String literals of the source, as code units. *)
Definition str (s : string) : text :=
  map N_of_ascii (list_ascii_of_string s).
Arguments str s%_string.

Definition char_eqb (a b : char) : bool := N.eqb a b.
Arguments char_eqb : simpl never.

Fixpoint text_eqb (a b : text) : bool :=
  match a, b with
  | [], [] => true
  | x :: a', y :: b' => char_eqb x y && text_eqb a' b'
  | _, _ => false
  end.

(** [s.slice(a, b)] for non-negative [a] and [b]: both ends are clamped to
    the length, and the result is empty when [b <= a]. *)
Definition slice (s : text) (a b : nat) : text := firstn (b - a) (skipn a s).

(** [s.slice(a)] *)
Definition sliceFrom (s : text) (a : nat) : text := skipn a s.

(** [s.includes(c)] for a one-character needle. *)
Definition includes (s : text) (c : char) : bool := existsb (char_eqb c) s.

(** [s.lastIndexOf(c)] for a one-character needle; [None] stands for -1. *)
Fixpoint lastIndexOf (s : text) (c : char) : option nat :=
  match s with
  | [] => None
  | x :: s' =>
      match lastIndexOf s' c with
      | Some i => Some (S i)
      | None => if char_eqb x c then Some 0 else None
      end
  end.

(** ** The pattern /\[\[([^\]]+?)\]\]/g *)

(** The closing [\]\]] anchored at the head of [s]; returns the input left. *)
Definition closing (s : text) : option text :=
  match s with
  | c1 :: c2 :: rest =>
      if char_eqb c1 RBRACKET && char_eqb c2 RBRACKET then Some rest else None
  | _ => None
  end.

(** [lazyPlus s] runs the lazy group [([^\]]+?)] followed by [\]\]] on
    [s]: it consumes one character that is not ']', then tries the closing
    [\]\]] before consuming any further character. It returns the captured
    group and the input left after the whole match. *)
Fixpoint lazyPlus (s : text) : option (text * text) :=
  match s with
  | [] => None
  | c :: s' =>
      if char_eqb c RBRACKET then None
      else
        match closing s' with
        | Some rest => Some ([c], rest)
        | None =>
            match lazyPlus s' with
            | Some (g, r) => Some (c :: g, r)
            | None => None
            end
        end
  end.

(** The whole pattern anchored at the head of [s]. *)
Definition matchHere (s : text) : option (text * text) :=
  match s with
  | c1 :: c2 :: s' =>
      if char_eqb c1 LBRACKET && char_eqb c2 LBRACKET then lazyPlus s' else None
  | _ => None
  end.

(** The result of [REGEX.exec]: [index], [match[0]] and [match[1]]. *)
Record RegExpMatch := {
  index : nat;
  fullMatch : text;
  inner : text
}.

(** The wikilink around [p]: the template literal of line 262, and the text
    [match[0]] of a match whose capture is [p]. *)
Definition wrap (p : text) : text :=
  LBRACKET :: LBRACKET :: p ++ [RBRACKET; RBRACKET].
Arguments wrap : simpl never.

(** The leftmost match in the suffix [s] of the subject that starts at
    absolute index [i]. *)
Fixpoint search (s : text) (i : nat) : option RegExpMatch :=
  match matchHere s with
  | Some (g, _) => Some {| index := i; fullMatch := wrap g; inner := g |}
  | None =>
      match s with
      | [] => None
      | _ :: s' => search s' (S i)
      end
  end.

(** [REGEX.exec(s)] with [REGEX.lastIndex = lastIndex]. *)
Definition exec (s : text) (lastIndex : nat) : option RegExpMatch :=
  search (skipn lastIndex s) lastIndex.

(** The value of [REGEX.lastIndex] after a successful [exec]. *)
Definition lastIndexAfter (m : RegExpMatch) : nat :=
  index m + length (fullMatch m).

(** The value of an expression together with the equation that defines it,
    for the termination proof of the loop below. *)
Definition inspect {A : Type} (a : A) : {b : A | a = b} := exist _ a eq_refl.

(** ** The loop [while ((match = REGEX.exec(s)) !== null) { ... }]

    The bodies of both loops of the source leave [REGEX] alone, so the loop
    visits the successive results of [exec], each call starting at the
    [lastIndex] left by the previous one, until [exec] returns [null] (which
    also resets [lastIndex] to 0 for the next subject). [execAll s lastIndex]
    is the sequence of matches visited. Every match is at least five code
    units long, so [lastIndex] strictly increases and the loop terminates. *)
Equations? execAll (s : text) (lastIndex : nat) : list RegExpMatch
  by wf (length s - lastIndex) lt :=
  execAll s lastIndex with inspect (exec s lastIndex) := {
    | exist _ (Some m) _ => m :: execAll s (lastIndexAfter m);
    | exist _ None _ => []
  }.
Proof.
  clear execAll.
  assert (Hlazy : forall t g r, lazyPlus t = Some (g, r) ->
            length t = length g + 2 + length r).
  { induction t as [|c t IH]; intros g r H; simpl in H; [discriminate|].
    destruct (char_eqb c RBRACKET); [discriminate|].
    destruct (closing t) as [rest|] eqn:Hc.
    - injection H as <- <-.
      destruct t as [|c1 [|c2 t']]; simpl in Hc; try discriminate.
      destruct (char_eqb c1 RBRACKET && char_eqb c2 RBRACKET);
        [injection Hc as <-|discriminate].
      simpl. lia.
    - destruct (lazyPlus t) as [[g' r']|]; [|discriminate].
      injection H as <- <-. simpl. rewrite (IH _ _ eq_refl). lia. }
  assert (Hsearch : forall t i m', search t i = Some m' ->
            i <= index m' /\ 5 <= length (fullMatch m') /\
            index m' + length (fullMatch m') <= i + length t).
  { induction t as [|c t IH]; intros i m' H.
    - simpl in H. discriminate.
    - cbn [search] in H.
      destruct (matchHere (c :: t)) as [[g r]|] eqn:Hm.
      + injection H as <-. simpl.
        destruct t as [|c2 t']; simpl in Hm; [discriminate|].
        destruct (char_eqb c LBRACKET && char_eqb c2 LBRACKET); [|discriminate].
        pose proof (Hlazy _ _ _ Hm) as Hl.
        assert (1 <= length g).
        { destruct t' as [|x t'']; simpl in Hm; [discriminate|].
          destruct (char_eqb x RBRACKET); [discriminate|].
          destruct (closing t''); [injection Hm as <- <-; simpl; lia|].
          destruct (lazyPlus t'') as [[? ?]|]; [|discriminate].
          injection Hm as <- <-. simpl. lia. }
        rewrite length_app. simpl in *. lia.
      + apply IH in H. simpl. lia. }
  unfold exec in e. apply Hsearch in e.
  unfold lastIndexAfter.
  rewrite length_skipn in e. lia.
Qed.

(** ** The host: files, link index, editor, console *)

(** What [metadataCache.getFirstLinkpathDest] can hand back: a file or some
    other vault entry; only the former passes [dest instanceof obsidian.TFile]. *)
Inductive TAbstractFile :=
| TFile (path : text)
| TFolder (path : text).

Inductive Error := HostError (message : text).

(** The completion of a call: a value, or a thrown error. *)
Inductive completion (A : Type) :=
| Normal (a : A)
| Throw (e : Error).
Arguments Normal {A} a.
Arguments Throw {A} e.

(** The document of the editor and the offset of its primary cursor
    ([editor.posToOffset(editor.getCursor())]). *)
Record Editor := {
  value : text;
  cursor : nat
}.

(** The behaviour of the host that [handleEditorChange] relies on.
    [setValueFault] and [setCursorFault] say when the corresponding editor
    call throws (a throwing call leaves the editor as it was);
    [cursorAfterSetValue] is where the editor leaves the cursor when the
    whole document is replaced. *)
Record Host := {
  getActiveFile : option text;
  getFirstLinkpathDest : text -> text -> completion (option TAbstractFile);
  setValueFault : text -> option Error;
  cursorAfterSetValue : Editor -> text -> nat;
  setCursorFault : nat -> option Error
}.

Inductive LogEntry := ConsoleError (message : text) (err : Error).

Record World := {
  editor : Editor;
  console : list LogEntry
}.

(** ** A state and exception monad for the statements of the source *)

Definition M (A : Type) : Type := World -> completion A * World.

Definition ret {A} (a : A) : M A := fun w => (Normal a, w).

Definition bind {A B} (c : M A) (k : A -> M B) : M B :=
  fun w =>
    match c w with
    | (Normal a, w') => k a w'
    | (Throw e, w') => (Throw e, w')
    end.

Definition throw {A} (e : Error) : M A := fun w => (Throw e, w).

(** [try { c } catch (err) { handler err }] *)
Definition tryCatch {A} (c : M A) (handler : Error -> M A) : M A :=
  fun w =>
    match c w with
    | (Normal a, w') => (Normal a, w')
    | (Throw e, w') => handler e w'
    end.

Definition liftC {A} (c : completion A) : M A := fun w => (c, w).

Notation "x <- c ;; k" := (bind c (fun x => k))
  (at level 61, c at next level, right associativity).
Notation "c ;;; k" := (bind c (fun _ => k))
  (at level 61, right associativity).

Definition getValue : M text := fun w => (Normal (value (editor w)), w).

Definition getCursorOffset : M nat := fun w => (Normal (cursor (editor w)), w).

(** [editor.setValue(t)] *)
Definition setValue (h : Host) (t : text) : M unit :=
  fun w =>
    match setValueFault h t with
    | Some e => (Throw e, w)
    | None =>
        (Normal tt,
         {| editor := {| value := t; cursor := cursorAfterSetValue h (editor w) t |};
            console := console w |})
    end.

(** [editor.setCursor(editor.offsetToPos(o))] *)
Definition setCursor (h : Host) (o : nat) : M unit :=
  fun w =>
    match setCursorFault h o with
    | Some e => (Throw e, w)
    | None =>
        (Normal tt,
         {| editor := {| value := value (editor w); cursor := o |};
            console := console w |})
    end.

(** [console.error(message, err)] *)
Definition consoleError (message : text) (err : Error) : M unit :=
  fun w =>
    (Normal tt,
     {| editor := editor w; console := console w ++ [ConsoleError message err] |}).

(** ** The rewriter: [handleEditorChange] *)

(** An entry of [replacements]: [{ start, end, replacement }]. *)
Record Replacement := {
  start : nat;
  end_ : nat;
  replacement : text
}.

(** [path.replace(/\.md$/, '')]: a trailing ".md" is dropped. *)
Definition stripMd (path : text) : text :=
  let n := length path - 3 in
  if (3 <=? length path) && text_eqb (skipn n path) (str ".md")
  then firstn n path
  else path.

(** The body of the scanning loop (lines 251-269) for one match: the
    replacement to push, if any. *)
Definition replacementFor (h : Host) (activePath : text) (m : RegExpMatch)
  : completion (option Replacement) :=
  if includes (inner m) SLASH then Normal None
  else
    match getFirstLinkpathDest h (inner m) activePath with
    | Throw e => Throw e
    | Normal (Some (TFile path)) =>
        let fullPathNoExt := stripMd path in
        let replacement := wrap fullPathNoExt in
        if negb (text_eqb replacement (fullMatch m))
        then
          let startIndex := index m in
          let endIndex := index m + length (fullMatch m) in
          Normal (Some {| start := startIndex; end_ := endIndex;
                          replacement := replacement |})
        else Normal None
    | Normal _ => Normal None
    end.

(** The scanning loop (lines 250-270) over the matches still to visit;
    [replacements] is the array built so far. *)
Fixpoint collectFrom (h : Host) (activePath : text) (ms : list RegExpMatch)
    (replacements : list Replacement) : completion (list Replacement) :=
  match ms with
  | [] => Normal replacements
  | m :: ms' =>
      match replacementFor h activePath m with
      | Throw e => Throw e
      | Normal (Some r) => collectFrom h activePath ms' (replacements ++ [r])
      | Normal None => collectFrom h activePath ms' replacements
      end
  end.

Definition collectReplacements (h : Host) (activePath original : text)
  : completion (list Replacement) :=
  collectFrom h activePath (execAll original 0) [].

(** [replacements.sort((a, b) => b.start - a.start)]: the sort is stable,
    so [r] is placed before the first entry whose start is not greater. *)
Fixpoint insertDesc (r : Replacement) (l : list Replacement) : list Replacement :=
  match l with
  | [] => [r]
  | x :: l' => if start x <=? start r then r :: x :: l' else x :: insertDesc r l'
  end.

Definition sortDesc (l : list Replacement) : list Replacement :=
  fold_right insertDesc [] l.

(** [newContent.slice(0, r.start) + r.replacement + newContent.slice(r.end)] *)
Definition splice (newContent : text) (r : Replacement) : text :=
  slice newContent 0 (start r) ++ replacement r ++ sliceFrom newContent (end_ r).

(** Lines 273-280: the array as the sort leaves it, [newContent] and
    [changed]. *)
Definition applyReplacements (original : text) (replacements : list Replacement)
  : list Replacement * text * bool :=
  if 0 <? length replacements
  then
    let sorted := sortDesc replacements in
    (sorted, fold_left splice sorted original, true)
  else (replacements, original, false).

(** Lines 296-301. *)
Definition deltaBefore (replacements : list Replacement) (primaryOffset : nat) : Z :=
  fold_left
    (fun d r =>
       if start r <? primaryOffset
       then (d + (Z.of_nat (length (replacement r))
                  - (Z.of_nat (end_ r) - Z.of_nat (start r))))%Z
       else d)
    replacements 0%Z.

(** Lines 302-304. *)
Definition newOffsetOf (replacements : list Replacement) (primaryOffset : nat)
    (newContent : text) : nat :=
  let newOffset := (Z.of_nat primaryOffset + deltaBefore replacements primaryOffset)%Z in
  let newOffset := if (newOffset <? 0)%Z then 0%Z else newOffset in
  let newOffset :=
    if (newOffset >? Z.of_nat (length newContent))%Z
    then Z.of_nat (length newContent) else newOffset in
  Z.to_nat newOffset.

Definition failedMessage : text := str "GhostPath: handleEditorChange failed".

Definition handleEditorChange (h : Host) : M unit :=
  tryCatch
    (match getActiveFile h with
     | None => ret tt
     | Some activePath =>
         original <- getValue ;;
         primaryOffset <- getCursorOffset ;;
         replacements <- liftC (collectReplacements h activePath original) ;;
         let '(replacements, newContent, changed) :=
           applyReplacements original replacements in
         if changed && negb (text_eqb newContent original)
         then
           setValue h newContent ;;;
           let newOffset := newOffsetOf replacements primaryOffset newContent in
           tryCatch
             (setCursor h newOffset)
             (fun _ => setCursor h (length newContent))
         else ret tt
     end)
    (fun err => consoleError failedMessage err).

(** One debounced editor-change event: the world it leaves. *)
Definition onEditorChange (h : Host) (w : World) : World :=
  snd (handleEditorChange h w).

(** ** The concealer: [buildDecorations] *)

(** An entry of [view.visibleRanges]. *)
Record VisibleRange := {
  from : nat;
  to : nat
}.

Record EditorView := {
  doc : text;
  visibleRanges : list VisibleRange
}.

(** A range added to the builder: [builder.add(rFrom, rTo, Decoration.replace
    ({ widget: new HiddenPrefixWidget(), inclusive: false }))]; it covers the
    offsets [rFrom <= i < rTo]. *)
Record HiddenRange := {
  rFrom : nat;
  rTo : nat
}.

(** The body of the inner loop (lines 148-162) for one match of the slice
    that starts at [from]. [lastIndexOf] cannot answer -1 past the
    [includes] test; -1 would give [prefixEnd = innerStart]. *)
Definition decorationFor (from : nat) (m : RegExpMatch) : option HiddenRange :=
  if negb (includes (inner m) SLASH) then None
  else
    let start := from + index m in
    let innerStart := start + 2 in
    let prefixEnd :=
      match lastIndexOf (inner m) SLASH with
      | Some lastSlashInInner => innerStart + lastSlashInInner + 1
      | None => innerStart
      end in
    Some {| rFrom := innerStart; rTo := prefixEnd |}.

(** The inner [while] loop over the matches of one slice; [builder] holds
    the ranges added so far. *)
Fixpoint decorateFrom (from : nat) (ms : list RegExpMatch)
    (builder : list HiddenRange) : list HiddenRange :=
  match ms with
  | [] => builder
  | m :: ms' =>
      match decorationFor from m with
      | Some d => decorateFrom from ms' (builder ++ [d])
      | None => decorateFrom from ms' builder
      end
  end.

(** The [for (const { from, to } of view.visibleRanges)] loop. *)
Fixpoint decorateRanges (text : text) (ranges : list VisibleRange)
    (builder : list HiddenRange) : list HiddenRange :=
  match ranges with
  | [] => builder
  | r :: ranges' =>
      let slice := slice text (from r) (to r) in
      decorateRanges text ranges' (decorateFrom (from r) (execAll slice 0) builder)
  end.

(** [buildDecorations(view)]: the value stored in [_lastSetting] and the
    decorations returned ([Decoration.none] is the empty set). *)
Definition buildDecorations (displayAsShortName : bool) (view : EditorView)
  : bool * list HiddenRange :=
  let _lastSetting := displayAsShortName in
  if negb displayAsShortName then (_lastSetting, [])
  else
    let builder := [] in
    let text := doc view in
    (_lastSetting, decorateRanges text (visibleRanges view) builder).

(** The view plugin (lines 118-170): its fields [decorations] and
    [_lastSetting]. *)
Record PluginValue := {
  decorations : list HiddenRange;
  _lastSetting : bool
}.

(** The argument of [update]. *)
Record ViewUpdate := {
  docChanged : bool;
  viewportChanged : bool;
  view : EditorView
}.

(** [constructor(view)] *)
Definition construct (displayAsShortName : bool) (v : EditorView) : PluginValue :=
  let '(lastSetting, decorations) := buildDecorations displayAsShortName v in
  {| decorations := decorations; _lastSetting := lastSetting |}.

(** [update(update)]: the decorations are rebuilt on a change of the
    document or of the viewport, or when the setting differs from the one
    the current decorations were built with. *)
Definition update (displayAsShortName : bool) (this : PluginValue) (u : ViewUpdate)
  : PluginValue :=
  if docChanged u || viewportChanged u
     || negb (Bool.eqb displayAsShortName (_lastSetting this))
  then
    let '(lastSetting, decorations) := buildDecorations displayAsShortName (view u) in
    {| decorations := decorations; _lastSetting := lastSetting |}
  else this.

(** ** The examples of the plugin's description, run on the model *)

Definition noFaultHost (activePath : option text)
    (resolve : text -> option TAbstractFile) : Host :=
  {| getActiveFile := activePath;
     getFirstLinkpathDest := fun linkpath _ => Normal (resolve linkpath);
     setValueFault := fun _ => None;
     cursorAfterSetValue := fun _ _ => 0;
     setCursorFault := fun _ => None |}.

Definition projectIndex (linkpath : text) : option TAbstractFile :=
  if text_eqb linkpath (str "Project")
  then Some (TFile (str "areas/work/Project.md"))
  else None.

Definition projectHost : Host := noFaultHost (Some (str "notes/today.md")) projectIndex.

(** ** Notions used to state and prove the properties *)

(** A capture of the pattern: at least one code unit, none of them ']'. *)
Definition validInner (g : text) : Prop := g <> [] /\ ~ In RBRACKET g.

Definition mkMatch (i : nat) (g : text) : RegExpMatch :=
  {| index := i; fullMatch := wrap g; inner := g |}.

(** [Scanned i s ms]: the suffix [s] of the subject, which starts at index
    [i], splits into gaps and occurrences, and [ms] are the occurrences. *)
Inductive Scanned : nat -> text -> list RegExpMatch -> Prop :=
| Scanned_done i s :
    search s i = None -> Scanned i s []
| Scanned_more i A g r ms :
    search (A ++ wrap g ++ r) i = Some (mkMatch (i + length A) g) ->
    validInner g ->
    Scanned (i + length A + length (wrap g)) r ms ->
    Scanned i (A ++ wrap g ++ r) (mkMatch (i + length A) g :: ms).

(** [Ops i s ops]: the replacements [ops] lie in the suffix [s] (which
    starts at index [i]) from left to right without overlap, each over the
    text of an occurrence and each a wikilink that differs from it. *)
Inductive Ops : nat -> text -> list Replacement -> Prop :=
| Ops_nil i s : Ops i s []
| Ops_cons i s A g p r st en ops :
    s = A ++ wrap g ++ r ->
    st = i + length A ->
    en = st + length (wrap g) ->
    ~ In RBRACKET g ->
    p <> g ->
    Ops en r ops ->
    Ops i s ({| start := st; end_ := en; replacement := wrap p |} :: ops).

(** The suffix [s] (starting at index [i]) with the replacements made from
    left to right. *)
Fixpoint rebuild (i : nat) (s : text) (ops : list Replacement) : text :=
  match ops with
  | [] => s
  | r :: ops' =>
      firstn (start r - i) s ++ replacement r
        ++ rebuild (end_ r) (skipn (end_ r - i) s) ops'
  end.

(** The change of length a replacement causes. *)
Definition delta (r : Replacement) : Z :=
  (Z.of_nat (length (replacement r)) - (Z.of_nat (end_ r) - Z.of_nat (start r)))%Z.

Fixpoint sumZ (l : list Z) : Z :=
  match l with
  | [] => 0%Z
  | x :: l' => (x + sumZ l')%Z
  end.

(** The sum of the changes of length of the replacements that start
    strictly before [offset]. *)
Definition shiftBefore (ops : list Replacement) (offset : nat) : Z :=
  sumZ (map delta (filter (fun r => start r <? offset) ops)).

Definition clamp (lo hi x : Z) : Z :=
  if (x <? lo)%Z then lo else if (hi <? x)%Z then hi else x.

Fixpoint count (c : char) (s : text) : nat :=
  match s with
  | [] => 0
  | x :: s' => (if char_eqb x c then 1 else 0) + count c s'
  end.

Definition optList {A} (o : option A) : list A :=
  match o with
  | Some a => [a]
  | None => []
  end.

(** The ranges lie between [lo] and [hi] and follow each other from left to
    right without overlap. *)
Inductive Chained : nat -> nat -> list HiddenRange -> Prop :=
| Chained_nil lo hi : lo <= hi -> Chained lo hi []
| Chained_cons lo hi d ds :
    lo <= rFrom d -> rFrom d < rTo d -> Chained (rTo d) hi ds ->
    Chained lo hi (d :: ds).

(** The ranges the inner loop adds for the matches [ms] of a slice. *)
Definition decorationsOf (from : nat) (ms : list RegExpMatch) : list HiddenRange :=
  flat_map (fun m => optList (decorationFor from m)) ms.

(** The visible ranges are disjoint and in document order. *)
Inductive OrderedRanges : nat -> list VisibleRange -> Prop :=
| OrderedRanges_nil lo : OrderedRanges lo []
| OrderedRanges_cons lo r rs :
    lo <= from r -> from r <= to r -> OrderedRanges (to r) rs ->
    OrderedRanges lo (r :: rs).

(** A host none of whose editor calls throws. *)
Definition editorNeverThrows (h : Host) : Prop :=
  (forall t, setValueFault h t = None) /\ (forall o, setCursorFault h o = None).

(** The canonical path the rewriter derives for a short name, if the link
    index yields a file. *)
Definition canonicalPath (h : Host) (activePath name : text) : option text :=
  match getFirstLinkpathDest h name activePath with
  | Normal (Some (TFile path)) => Some (stripMd path)
  | _ => None
  end.

(** The world after an error was caught at the boundary of
    [handleEditorChange] without any change to the editor. *)
Definition logged (w : World) (e : Error) : World :=
  {| editor := editor w;
     console := console w ++ [ConsoleError failedMessage e] |}.

(** [newContent] after lines 273-280. *)
Definition newContentOf (original : text) (replacements : list Replacement) : text :=
  snd (fst (applyReplacements original replacements)).

(** [changed] after lines 273-280. *)
Definition changedOf (original : text) (replacements : list Replacement) : bool :=
  snd (applyReplacements original replacements).

(** A link index is stable when the canonical paths it yields contain no ']'
    and are either full paths or non-empty names that it does not map to
    another path. *)
Definition stableIndex (h : Host) (activePath : text) : Prop :=
  forall name p,
    canonicalPath h activePath name = Some p ->
    ~ In RBRACKET p /\
    (In SLASH p \/
     (p <> [] /\
      (exists r, getFirstLinkpathDest h p activePath = Normal r) /\
      (canonicalPath h activePath p = None \/
       canonicalPath h activePath p = Some p))).

(** A host whose editor refuses every cursor placement. *)
Definition cursorError : Error := HostError (str "setCursor failed").

Definition brokenCursorHost : Host :=
  {| getActiveFile := Some (str "notes/today.md");
     getFirstLinkpathDest := fun linkpath _ => Normal (projectIndex linkpath);
     setValueFault := fun _ => None;
     cursorAfterSetValue := fun _ _ => 0;
     setCursorFault := fun _ => Some cursorError |}.



(** A link index that maps the name "a" to the root file "b.md" and the
    name "b" to the root file "c.md". *)
Definition chainIndex (linkpath : text) : option TAbstractFile :=
  if text_eqb linkpath (str "a") then Some (TFile (str "b.md"))
  else if text_eqb linkpath (str "b") then Some (TFile (str "c.md"))
  else None.

Definition chainHost : Host := noFaultHost (Some (str "notes/today.md")) chainIndex.

Definition projectWorld (c : nat) : World :=
  {| editor := {| value := str "See [[Project]] for details."; cursor := c |};
     console := [] |}.

(** The link index has no regular file for [name]: [getFirstLinkpathDest]
    answers [null] or something that is not a [TFile]. *)
Definition unresolvable (h : Host) (activePath name : text) : Prop :=
  getFirstLinkpathDest h name activePath = Normal None \/
  exists path, getFirstLinkpathDest h name activePath = Normal (Some (TFolder path)).

(** The offset of the new content to which the rewrite moves the offset
    [offset] of the original text. *)
Definition remap (ops : list Replacement) (offset : nat) : nat :=
  Z.to_nat (Z.of_nat offset + shiftBefore ops offset).

(** * The rest of the plugin *)

(** ** The reading-view post-processor (lines 101-112) *)

(** An [a.internal-link] element: its [href] attribute ([None] when
    [getAttribute] answers [null]) and its [innerText]. *)
Record InternalLink := {
  href : option text;
  innerText : text
}.

(** [s.substring(a)] for a non-negative [a]. *)
Definition substring (s : text) (a : nat) : text := skipn a s.

(** The body of [links.forEach] (lines 105-110). [!href] holds for [null]
    and for the empty string; [lastIndexOf] answers -1 only without a '/',
    and -1 + 1 is 0. *)
Definition shortenLink (link : InternalLink) : InternalLink :=
  match href link with
  | None => link
  | Some h =>
      match h with
      | [] => link
      | _ :: _ =>
          if includes h SLASH
          then
            let last :=
              substring h (match lastIndexOf h SLASH with
                           | Some k => k + 1
                           | None => 0
                           end) in
            {| href := href link; innerText := last |}
          else link
      end
  end.

(** The post-processor on the internal links of a rendered element. *)
Definition markdownPostProcessor (displayAsShortName : bool)
    (links : list InternalLink) : list InternalLink :=
  if negb displayAsShortName then links else map shortenLink links.

(** ** [debounce] (lines 19-25) over the timers of the host *)

(** The timers of the host that are set and not yet fired or cleared, each
    with the arguments its callback [() => fn(...args)] closes over, and the
    next timer id. When a timer fires is up to the host. *)
Record TimerHost (Args : Type) := {
  timers : list (nat * Args);
  nextTimer : nat
}.
Arguments timers {Args} _.
Arguments nextTimer {Args} _.

(** [setTimeout(() => fn(...args), wait)]: the id of the new timer and the
    host with it. *)
Definition setTimeout {Args} (args : Args) (th : TimerHost Args)
  : nat * TimerHost Args :=
  (nextTimer th,
   {| timers := timers th ++ [(nextTimer th, args)];
      nextTimer := S (nextTimer th) |}).

(** [clearTimeout(t)]; [t] is [undefined] before the first call, and
    clearing a timer that is not pending does nothing. *)
Definition clearTimeout {Args} (t : option nat) (th : TimerHost Args)
  : TimerHost Args :=
  match t with
  | None => th
  | Some id =>
      {| timers := filter (fun p => negb (fst p =? id)) (timers th);
         nextTimer := nextTimer th |}
  end.

(** The variable [t] of the closure, the timers of the host, and the state
    [fn] acts on. *)
Record Debounced (Args S : Type) := {
  t : option nat;
  timerHost : TimerHost Args;
  target : S
}.
Arguments t {Args S} _.
Arguments timerHost {Args S} _.
Arguments target {Args S} _.

(** A call of the function [debounce] returns (lines 21-24). *)
Definition debouncedCall {Args S} (args : Args) (d : Debounced Args S)
  : Debounced Args S :=
  let th := clearTimeout (t d) (timerHost d) in
  let '(id, th') := setTimeout args th in
  {| t := Some id; timerHost := th'; target := target d |}.

Fixpoint findTimer {Args} (id : nat) (l : list (nat * Args)) : option Args :=
  match l with
  | [] => None
  | (id', args) :: l' => if id' =? id then Some args else findTimer id l'
  end.

(** The host fires the timer [id]: the timer is gone and its callback runs
    [fn] on its arguments. Nothing happens when no such timer is pending. *)
Definition fireTimer {Args S} (fn : Args -> S -> S) (id : nat)
    (d : Debounced Args S) : Debounced Args S :=
  match findTimer id (timers (timerHost d)) with
  | None => d
  | Some args =>
      {| t := t d;
         timerHost :=
           {| timers := filter (fun p => negb (fst p =? id)) (timers (timerHost d));
              nextTimer := nextTimer (timerHost d) |};
         target := fn args (target d) |}
  end.

Inductive TimerEvent (Args : Type) :=
| Call (args : Args)
| Fire (id : nat).
Arguments Call {Args} args.
Arguments Fire {Args} id.

Definition debounceStep {Args S} (fn : Args -> S -> S) (d : Debounced Args S)
    (ev : TimerEvent Args) : Debounced Args S :=
  match ev with
  | Call args => debouncedCall args d
  | Fire id => fireTimer fn id d
  end.

Definition debounceRun {Args S} (fn : Args -> S -> S)
    (evs : list (TimerEvent Args)) (d : Debounced Args S) : Debounced Args S :=
  fold_left (debounceStep fn) evs d.

(** [debounce(fn, wait)] before its first call. *)
Definition debounce {Args S} (nextId : nat) (s : S) : Debounced Args S :=
  {| t := None; timerHost := {| timers := []; nextTimer := nextId |}; target := s |}.

(** ** The editor-change handler as registered (lines 93-98) *)

(** The editors of the workspace, by number, and the console. *)
Record Workspace := {
  editors : nat -> Editor;
  workspaceConsole : list LogEntry
}.

(** [handleEditorChange(editor)] for the editor number [e]. *)
Definition handleEditorChangeOn (h : Host) (e : nat) (ws : Workspace) : Workspace :=
  let w' :=
    onEditorChange h {| editor := editors ws e; console := workspaceConsole ws |} in
  {| editors := fun e' => if e' =? e then editor w' else editors ws e';
     workspaceConsole := console w' |}.

(** The plugin's reaction to an 'editor-change' event of editor [e]
    ([Call e]) and to the firing of a timer. *)
Definition pluginStep (h : Host) (d : Debounced nat Workspace)
    (ev : TimerEvent nat) : Debounced nat Workspace :=
  debounceStep (handleEditorChangeOn h) d ev.

(** ** Notions used to state the further properties *)

(** The arguments of the last call among the events. *)
Fixpoint lastCall {Args} (evs : list (TimerEvent Args)) : option Args :=
  match evs with
  | [] => None
  | ev :: evs' =>
      match lastCall evs' with
      | Some a => Some a
      | None => match ev with Call a => Some a | Fire _ => None end
      end
  end.

(** The arguments of the calls among the events, in order. *)
Fixpoint callsOf {Args} (evs : list (TimerEvent Args)) : list Args :=
  match evs with
  | [] => []
  | Call a :: evs' => a :: callsOf evs'
  | Fire _ :: evs' => callsOf evs'
  end.

(** [fn] that only records its arguments. *)
Definition record {Args} (args : Args) (log : list Args) : list Args :=
  log ++ [args].

(** [l1] is [l2] with some entries left out. *)
Inductive Subsequence {A} : list A -> list A -> Prop :=
| Subsequence_nil : Subsequence [] []
| Subsequence_skip x l1 l2 : Subsequence l1 l2 -> Subsequence l1 (x :: l2)
| Subsequence_take x l1 l2 : Subsequence l1 l2 -> Subsequence (x :: l1) (x :: l2).

(** The inner text an occurrence has after the rewrite: the canonical path
    for a short name that resolves, the inner text itself otherwise. *)
Definition newInner (h : Host) (activePath : text) (m : RegExpMatch) : text :=
  if includes (inner m) SLASH then inner m
  else
    match canonicalPath h activePath (inner m) with
    | Some p => p
    | None => inner m
    end.

(** The decorations of the plugin are those of [buildDecorations] for the
    setting [s] and the view [v]. *)
Definition builtFor (s : bool) (v : EditorView) (this : PluginValue) : Prop :=
  decorations this = snd (buildDecorations s v) /\ _lastSetting this = s.

(** At most one timer of the debounced function is pending, and [t] is its
    id. *)
Definition Coalesced {Args S} (d : Debounced Args S) : Prop :=
  timers (timerHost d) = [] \/
  exists id args, timers (timerHost d) = [(id, args)] /\ t d = Some id.

(** ** The settings (lines 14-16, 72-79, 210-215) *)

(** The values of the plugin's data: JSON scalars. *)
Inductive JsValue :=
| JsBool (b : bool)
| JsNumber (z : Z)
| JsString (s : text)
| JsNull.

(** A plain object: its own properties; a key has one entry. *)
Definition JsObject := list (text * JsValue).

(** The own property [key] of [o]; [None] when [o] has none. *)
Fixpoint getProp (o : JsObject) (key : text) : option JsValue :=
  match o with
  | [] => None
  | (k, v) :: o' => if text_eqb k key then Some v else getProp o' key
  end.

(** The key that names the accessor inherited from [Object.prototype]. *)
Definition protoKey : text := str "__proto__".

(** [o[key] = v] on a plain object. A store to [__proto__] runs the
    inherited setter, which for a scalar leaves the prototype alone or, for
    [null], clears it; in no case does the object get an own property. *)
Fixpoint setOwn (o : JsObject) (key : text) (v : JsValue) : JsObject :=
  match o with
  | [] => [(key, v)]
  | (k, x) :: o' =>
      if text_eqb k key then (k, v) :: o' else (k, x) :: setOwn o' key v
  end.

Definition setProp (o : JsObject) (key : text) (v : JsValue) : JsObject :=
  if text_eqb key protoKey then o else setOwn o key v.

(** [Object.assign(target, ...sources)]: the properties of each source are
    set on the target in turn; a [null] source is skipped. *)
Definition assignFrom (target source : JsObject) : JsObject :=
  fold_left (fun tgt kv => setProp tgt (fst kv) (snd kv)) source target.

Definition objectAssign (target : JsObject) (sources : list (option JsObject))
  : JsObject :=
  fold_left
    (fun tgt src => match src with Some o => assignFrom tgt o | None => tgt end)
    sources target.

Definition displayAsShortNameKey : text := str "displayAsShortName".

Definition DEFAULT_SETTINGS : JsObject := [(displayAsShortNameKey, JsBool true)].

(** [loadSettings()]; [data] is what [loadData()] resolves to, [None] when
    nothing was saved. *)
Definition loadSettings (data : option JsObject) : JsObject :=
  objectAssign [] [Some DEFAULT_SETTINGS; data].

(** [saveSettings()]: what [loadData()] resolves to afterwards. *)
Definition saveSettings (settings : JsObject) : option JsObject := Some settings.

(** The toggle of the settings tab (lines 74-76): the settings and the saved
    data after [onChange(v)]. *)
Definition onToggle (v : bool) (settings : JsObject) : JsObject * option JsObject :=
  let settings := setProp settings displayAsShortNameKey (JsBool v) in
  (settings, saveSettings settings).

(** The truth value of a value in a condition. *)
Definition truthy (v : option JsValue) : bool :=
  match v with
  | Some (JsBool b) => b
  | Some (JsNumber z) => negb (z =? 0)%Z
  | Some (JsString s) => match s with [] => false | _ :: _ => true end
  | Some JsNull => false
  | None => false
  end.

(** [settings.displayAsShortName] as the conditions of lines 102 and 134
    read it. *)
Definition displayAsShortNameOf (settings : JsObject) : bool :=
  truthy (getProp settings displayAsShortNameKey).

(** The folders of a path up to and with its last '/', if it has one. *)
Definition folderPrefix (g : text) : list text :=
  match lastIndexOf g SLASH with
  | Some k => [firstn (S k) g]
  | None => []
  end.

(** The texts the decorations of a view hide. *)
Definition hiddenTexts (v : EditorView) : list text :=
  map (fun d => slice (doc v) (rFrom d) (rTo d)) (snd (buildDecorations true v)).

(** The view of a document that is visible as a whole. *)
Definition wholeDocument (t : text) : EditorView :=
  {| doc := t; visibleRanges := [{| from := 0; to := length t |}] |}.

(** * Properties *)

(** ** The examples of the plugin's description *)

Example exampleA :
  editor (onEditorChange projectHost
            {| editor := {| value := str "See [[Project]] for details."; cursor := 20 |};
               console := [] |})
  = {| value := str "See [[areas/work/Project]] for details."; cursor := 31 |}.
Proof. vm_compute. reflexivity. Qed.

Example exampleB :
  onEditorChange projectHost
    {| editor := {| value := str "[[areas/work/Project]]"; cursor := 3 |};
       console := [] |}
  = {| editor := {| value := str "[[areas/work/Project]]"; cursor := 3 |};
       console := [] |}.
Proof. vm_compute. reflexivity. Qed.

Example scan_two_links :
  map (fun m => (index m, inner m)) (execAll (str "See [[Project]] and [[a/b]].") 0)
  = [(4, str "Project"); (20, str "a/b")].
Proof. vm_compute. reflexivity. Qed.

Example scan_leftmost_bracket :
  execAll (str "[[[a]] [[b") 0 = [mkMatch 0 (str "[a")].
Proof. vm_compute. reflexivity. Qed.

Example scan_across_lines :
  map inner (execAll [91; 91; 97; 10; 98; 93; 93]%N 0) = [[97; 10; 98]%N].
Proof. vm_compute. reflexivity. Qed.

Example strip_md :
  stripMd (str "areas/work/Project.md") = str "areas/work/Project" /\
  stripMd (str "pictures/cat.png") = str "pictures/cat.png" /\
  stripMd (str "a.md.md") = str "a.md".
Proof. vm_compute. auto. Qed.

Example exampleC :
  buildDecorations true
    {| doc := str "Link: [[areas/work/Project]]";
       visibleRanges := [{| from := 0; to := 28 |}] |}
  = (true, [{| rFrom := 8; rTo := 19 |}]).
Proof. vm_compute. reflexivity. Qed.

Example exampleD :
  buildDecorations false
    {| doc := str "Link: [[areas/work/Project]]";
       visibleRanges := [{| from := 0; to := 28 |}] |}
  = (false, []).
Proof. reflexivity. Qed.

(** ** Strings *)

Lemma char_eqb_eq (a b : char) : char_eqb a b = true <-> a = b.
Proof. apply N.eqb_eq. Qed.

Lemma char_eqb_neq (a b : char) : char_eqb a b = false <-> a <> b.
Proof. apply N.eqb_neq. Qed.

Lemma char_eqb_refl (a : char) : char_eqb a a = true.
Proof. apply N.eqb_refl. Qed.

(** Turns the boolean tests on code units in the context into equations. *)
Ltac char_facts :=
  repeat match goal with
         | H : char_eqb _ _ = true |- _ => apply char_eqb_eq in H
         | H : char_eqb _ _ = false |- _ => apply char_eqb_neq in H
         end.

Lemma text_eqb_eq (a b : text) : text_eqb a b = true <-> a = b.
Proof.
  revert b. induction a as [|x a IH]; intros [|y b]; simpl;
    try (split; [discriminate | discriminate]); [split; reflexivity|].
  rewrite andb_true_iff, char_eqb_eq, IH.
  split; [intros [-> ->]; reflexivity | intros H; injection H; auto].
Qed.

Lemma text_eqb_neq (a b : text) : text_eqb a b = false <-> a <> b.
Proof.
  rewrite <- text_eqb_eq. destruct (text_eqb a b); split; congruence.
Qed.

Lemma includes_In (s : text) (c : char) : includes s c = true <-> In c s.
Proof.
  unfold includes. rewrite existsb_exists. split.
  - intros [x [Hin Heq]]. apply char_eqb_eq in Heq. subst. exact Hin.
  - intros Hin. exists c. split; [exact Hin | apply char_eqb_refl].
Qed.

Lemma includes_not_In (s : text) (c : char) : includes s c = false <-> ~ In c s.
Proof.
  rewrite <- includes_In. destruct (includes s c); split; congruence.
Qed.

Lemma lastIndexOf_None (s : text) (c : char) :
  lastIndexOf s c = None <-> ~ In c s.
Proof.
  induction s as [|x s IH]; simpl.
  - split; auto.
  - destruct (lastIndexOf s c) as [i|].
    + split; [discriminate|]. intros H. exfalso.
      assert (Hs : ~ In c s) by tauto.
      apply IH in Hs. discriminate.
    + destruct (char_eqb x c) eqn:E.
      * apply char_eqb_eq in E. split; [discriminate | intros H; tauto].
      * apply char_eqb_neq in E. split; [|reflexivity].
        intros _ [H|H]; [congruence|]. revert H. apply IH. reflexivity.
Qed.

(** [lastIndexOf] answers the position of the last occurrence. *)
Lemma lastIndexOf_Some (s : text) (c : char) (k : nat) :
  lastIndexOf s c = Some k ->
  nth_error s k = Some c /\ k < length s /\
  (forall j, k < j -> nth_error s j <> Some c).
Proof.
  revert k. induction s as [|x s IH]; intros k; simpl; [discriminate|].
  destruct (lastIndexOf s c) as [i|] eqn:E.
  - intros H. injection H as <-. destruct (IH i eq_refl) as (H1 & H2 & H3).
    simpl. repeat split; [exact H1 | lia |].
    intros [|j] Hj; [lia|]. simpl. apply H3. lia.
  - destruct (char_eqb x c) eqn:Ex; [|discriminate].
    intros H. injection H as <-. apply char_eqb_eq in Ex. subst x.
    simpl. repeat split; [lia|].
    intros [|j] Hj; [lia|]. simpl. intros Hn.
    apply nth_error_In in Hn. apply lastIndexOf_None in E. tauto.
Qed.

Lemma wrap_length (g : text) : length (wrap g) = length g + 4.
Proof. unfold wrap. simpl. rewrite length_app. simpl. lia. Qed.

Lemma wrap_inj (g p : text) : wrap g = wrap p -> g = p.
Proof.
  unfold wrap. intros H. injection H as H.
  apply app_inv_tail in H. exact H.
Qed.

Lemma wrap_app (g r : text) :
  wrap g ++ r = LBRACKET :: LBRACKET :: g ++ RBRACKET :: RBRACKET :: r.
Proof. unfold wrap. simpl. rewrite <- app_assoc. reflexivity. Qed.

(** Two texts that agree up to their first ']' have the same part before it. *)
Lemma first_rbracket_unique (g p r1 r2 : text) :
  ~ In RBRACKET g -> ~ In RBRACKET p ->
  g ++ RBRACKET :: r1 = p ++ RBRACKET :: r2 -> g = p /\ r1 = r2.
Proof.
  revert p. induction g as [|x g IH]; intros [|y p] Hg Hp H; simpl in *.
  - injection H as <-. auto.
  - injection H as H _. subst y. tauto.
  - injection H as H _. subst x. tauto.
  - injection H as -> H. apply IH in H; [|tauto|tauto].
    destruct H as [-> ->]. auto.
Qed.

(** ** The pattern *)

Lemma closing_Some (s rest : text) :
  closing s = Some rest <-> s = RBRACKET :: RBRACKET :: rest.
Proof.
  destruct s as [|c1 [|c2 s']]; simpl; try (split; discriminate).
  destruct (char_eqb c1 RBRACKET) eqn:E1, (char_eqb c2 RBRACKET) eqn:E2; simpl;
    char_facts; split; intros H; try discriminate;
    first [congruence | injection H; intros; subst; reflexivity].
Qed.

(** The lazy group followed by the closing brackets succeeds exactly on a
    non-empty run without ']' followed by ']]'. *)
Lemma lazyPlus_Some (s g r : text) :
  lazyPlus s = Some (g, r) <->
  s = g ++ RBRACKET :: RBRACKET :: r /\ validInner g.
Proof.
  unfold validInner. revert g r. induction s as [|c s IH]; intros g r; simpl.
  - split; [discriminate|]. intros [H _]. destruct g; discriminate.
  - destruct (char_eqb c RBRACKET) eqn:Ec.
    + apply char_eqb_eq in Ec. subst c. split; [discriminate|].
      intros [H [Hne Hin]]. destruct g as [|x g]; [congruence|].
      injection H as <- _. simpl in Hin. tauto.
    + apply char_eqb_neq in Ec.
      destruct (closing s) as [rest|] eqn:Hc.
      * apply closing_Some in Hc. subst s. split.
        -- intros H. injection H as <- <-. simpl.
           repeat split; [discriminate | intros [H|[]]; congruence].
        -- intros [H [Hne Hin]]. destruct g as [|x g]; [congruence|].
           injection H as <- H.
           assert ([] = g /\ RBRACKET :: rest = RBRACKET :: r) as [<- Hr].
           { apply (first_rbracket_unique [] g);
               [simpl; tauto | simpl in Hin; tauto | exact H]. }
           injection Hr as <-. reflexivity.
      * destruct (lazyPlus s) as [[g' r']|] eqn:Hl.
        -- destruct (proj1 (IH g' r') eq_refl) as [-> [Hne' Hin']]. split.
           ++ intros H. injection H as <- <-. simpl.
              repeat split; [discriminate | intros [H|H]; [congruence | tauto]].
           ++ intros [H [Hne Hin]]. destruct g as [|x g]; [congruence|].
              injection H as <- H.
              apply first_rbracket_unique in H; [|tauto | simpl in Hin; tauto].
              destruct H as [-> H]. injection H as ->. reflexivity.
        -- split; [discriminate|].
           intros [H [Hne Hin]]. destruct g as [|x g]; [congruence|].
           injection H as <- H. exfalso.
           destruct g as [|y g].
           ++ simpl in H. subst s.
              rewrite (proj2 (closing_Some _ r) eq_refl) in Hc. discriminate.
           ++ assert (Hs : None = Some (y :: g, r)).
              { apply IH. split; [exact H|].
                split; [discriminate | simpl in *; tauto]. }
              discriminate.
Qed.

Lemma matchHere_Some (s g r : text) :
  matchHere s = Some (g, r) <-> s = wrap g ++ r /\ validInner g.
Proof.
  rewrite wrap_app. unfold matchHere.
  destruct s as [|c1 [|c2 s']]; try (split; [discriminate | intros [H _]; discriminate]).
  destruct (char_eqb c1 LBRACKET) eqn:E1, (char_eqb c2 LBRACKET) eqn:E2; simpl;
    char_facts;
    try (split; [discriminate | intros [H _]; injection H; intros; congruence]).
  subst. rewrite lazyPlus_Some. split.
  - intros [-> Hv]. auto.
  - intros [H Hv]. injection H as ->. auto.
Qed.

Lemma wrap_valid_matchHere (g r : text) :
  validInner g -> matchHere (wrap g ++ r) = Some (g, r).
Proof. intros Hv. apply matchHere_Some. auto. Qed.

Lemma first_occurrence (c : char) (l : text) :
  In c l -> exists l1 l2, l = l1 ++ c :: l2 /\ ~ In c l1.
Proof.
  induction l as [|x l IH]; intros Hin; [destruct Hin|].
  destruct (char_eqb x c) eqn:E; char_facts.
  - subst x. exists [], l. simpl. auto.
  - destruct Hin as [Hx|Hin]; [congruence|].
    destruct (IH Hin) as (l1 & l2 & -> & Hn).
    exists (x :: l1), l2. split; [reflexivity|].
    intros [H|H]; [congruence | tauto].
Qed.

Lemma LBRACKET_neq_RBRACKET : LBRACKET <> RBRACKET.
Proof. discriminate. Qed.

(** Whether the lazy group fails in the gap before an occurrence does not
    depend on the capture of that occurrence nor on what follows it. *)
Lemma lazyPlus_None_gap (B g r g' r' : text) :
  validInner g -> validInner g' ->
  lazyPlus (B ++ wrap g ++ r) = None ->
  lazyPlus (B ++ wrap g' ++ r') = None.
Proof.
  intros [Hne Hg] [Hne' Hg'] Hnone.
  destruct (lazyPlus (B ++ wrap g' ++ r')) as [[x y]|] eqn:Hl; [|reflexivity].
  exfalso. apply lazyPlus_Some in Hl. destruct Hl as [Heq [Hxne Hx]].
  destruct (in_dec N.eq_dec RBRACKET B) as [Hin|Hnin].
  - destruct (first_occurrence _ _ Hin) as (B1 & B2 & -> & HB1).
    rewrite <- app_assoc in Heq. simpl in Heq.
    apply first_rbracket_unique in Heq; [|assumption|assumption].
    destruct Heq as [<- Heq].
    destruct B2 as [|b B2].
    + simpl in Heq. injection Heq as Heq _.
      now apply LBRACKET_neq_RBRACKET.
    + simpl in Heq. injection Heq as -> _.
      assert (Hs : lazyPlus ((B1 ++ RBRACKET :: RBRACKET :: B2) ++ wrap g ++ r)
                   = Some (B1, B2 ++ wrap g ++ r)).
      { apply lazyPlus_Some. split; [|split; assumption].
        rewrite <- app_assoc. reflexivity. }
      congruence.
  - assert (Hs : lazyPlus (B ++ wrap g ++ r)
                 = Some (B ++ LBRACKET :: LBRACKET :: g, r)).
    { apply lazyPlus_Some. split; [|split].
      - rewrite wrap_app, <- app_assoc. reflexivity.
      - destruct B; discriminate.
      - rewrite in_app_iff. simpl.
        pose proof LBRACKET_neq_RBRACKET. tauto. }
    congruence.
Qed.

Lemma matchHere_None_gap (B g r g' r' : text) :
  B <> [] -> validInner g -> validInner g' ->
  matchHere (B ++ wrap g ++ r) = None ->
  matchHere (B ++ wrap g' ++ r') = None.
Proof.
  intros HB Hv Hv' Hnone.
  destruct B as [|b1 B]; [congruence|].
  destruct B as [|b2 B].
  - destruct (char_eqb b1 LBRACKET) eqn:E1.
    + char_facts. subst b1. exfalso.
      assert (Hs : matchHere ([LBRACKET] ++ wrap g ++ r) = Some (LBRACKET :: g, r)).
      { apply matchHere_Some. split; [reflexivity|].
        destruct Hv as [_ Hg]. split; [discriminate|].
        simpl. pose proof LBRACKET_neq_RBRACKET. tauto. }
      congruence.
    + unfold wrap. simpl. rewrite E1. reflexivity.
  - simpl in *.
    destruct (char_eqb b1 LBRACKET), (char_eqb b2 LBRACKET); simpl in *;
      try reflexivity.
    exact (lazyPlus_None_gap B g r g' r' Hv Hv' Hnone).
Qed.

Lemma search_unfold (s : text) (i : nat) :
  search s i =
  match matchHere s with
  | Some (g, _) => Some (mkMatch i g)
  | None =>
      match s with
      | [] => None
      | _ :: s' => search s' (S i)
      end
  end.
Proof. destruct s; reflexivity. Qed.

(** A match found by [search] is an occurrence of the subject. *)
Lemma search_Some (s : text) (i : nat) (m : RegExpMatch) :
  search s i = Some m ->
  exists A g r,
    s = A ++ wrap g ++ r /\ validInner g /\ m = mkMatch (i + length A) g.
Proof.
  revert i. induction s as [|c s IH]; intros i; rewrite search_unfold.
  - simpl. discriminate.
  - destruct (matchHere (c :: s)) as [[g r]|] eqn:Hm.
    + intros H. injection H as <-. apply matchHere_Some in Hm.
      destruct Hm as [Hs Hv]. exists [], g, r. simpl.
      rewrite Nat.add_0_r. auto.
    + intros H. apply IH in H. destruct H as (A & g & r & -> & Hv & ->).
      exists (c :: A), g, r. simpl. rewrite Nat.add_succ_r. auto.
Qed.

(** The leftmost occurrence stays the leftmost one when its capture and
    the text after it are exchanged, wherever the subject starts. *)
Lemma search_gap (A g r g' r' : text) (i j : nat) :
  validInner g -> validInner g' ->
  search (A ++ wrap g ++ r) i = Some (mkMatch (i + length A) g) ->
  search (A ++ wrap g' ++ r') j = Some (mkMatch (j + length A) g').
Proof.
  intros Hv Hv'. revert i j. induction A as [|a A IH]; intros i j Hs.
  - rewrite app_nil_l, search_unfold, wrap_valid_matchHere by assumption.
    simpl. rewrite Nat.add_0_r. reflexivity.
  - rewrite search_unfold in Hs. rewrite search_unfold.
    destruct (matchHere ((a :: A) ++ wrap g ++ r)) as [[x y]|] eqn:Hm.
    + injection Hs as Hi _. simpl in Hi. lia.
    + rewrite (matchHere_None_gap (a :: A) g r g' r'); try assumption;
        [|discriminate].
      simpl in *. rewrite Nat.add_succ_r in *. apply (IH (S i)). exact Hs.
Qed.

Lemma search_None_index (s : text) (i j : nat) :
  search s i = None -> search s j = None.
Proof.
  revert i j. induction s as [|c s IH]; intros i j.
  - simpl. auto.
  - rewrite (search_unfold (c :: s) i), (search_unfold (c :: s) j).
    destruct (matchHere (c :: s)) as [[g r]|]; [discriminate|]. apply IH.
Qed.

(** ** The scanning loop *)

Lemma execAll_step (s : text) (lastIndex : nat) :
  execAll s lastIndex =
  match exec s lastIndex with
  | Some m => m :: execAll s (lastIndexAfter m)
  | None => []
  end.
Proof.
  apply (execAll_elim
           (fun s i res =>
              res = match exec s i with
                    | Some m => m :: execAll s (lastIndexAfter m)
                    | None => []
                    end)).
  - intros s0 i m e _ _. rewrite e. reflexivity.
  - intros s0 i e _. rewrite e. reflexivity.
Qed.

Lemma skipn_app_exact (P s : text) : skipn (length P) (P ++ s) = s.
Proof. induction P; simpl; auto. Qed.

Lemma firstn_app_exact (P s : text) : firstn (length P) (P ++ s) = P.
Proof. induction P; simpl; [destruct s|]; congruence. Qed.

(** The loop visits the occurrences of a decomposition of the subject. *)
Lemma Scanned_execAll (i : nat) (s : text) (ms : list RegExpMatch) :
  Scanned i s ms ->
  forall P, length P = i -> execAll (P ++ s) i = ms.
Proof.
  induction 1 as [i s Hs | i A g r ms Hs Hv Hrest IH]; intros P HP;
    rewrite execAll_step; unfold exec; subst i; rewrite skipn_app_exact, Hs.
  - reflexivity.
  - f_equal. unfold lastIndexAfter, mkMatch. simpl index. simpl fullMatch.
    rewrite <- (IH (P ++ A ++ wrap g)).
    + rewrite <- !app_assoc. reflexivity.
    + rewrite !length_app. lia.
Qed.

(** Conversely the subject decomposes along the matches the loop visits. *)
Lemma execAll_Scanned (s : text) (i : nat) :
  Scanned i (skipn i s) (execAll s i).
Proof.
  remember (length s - i) as n eqn:Hn.
  revert i Hn. induction n as [n IH] using lt_wf_ind. intros i Hn.
  rewrite execAll_step. unfold exec.
  destruct (search (skipn i s) i) as [m|] eqn:Hs.
  - destruct (search_Some _ _ _ Hs) as (A & g & r & Heq & Hv & ->).
    rewrite Heq in *.
    assert (Hlen : length s - i = length A + length (wrap g) + length r).
    { rewrite <- length_skipn, Heq, !length_app. lia. }
    assert (Hr : r = skipn (i + length A + length (wrap g)) s).
    { replace (i + length A + length (wrap g))
        with (length (A ++ wrap g) + i) by (rewrite length_app; lia).
      rewrite <- skipn_skipn, Heq, app_assoc, skipn_app_exact. reflexivity. }
    apply Scanned_more; [exact Hs | exact Hv |].
    unfold lastIndexAfter, mkMatch. simpl index. simpl fullMatch.
    rewrite Hr at 1.
    apply (IH (length s - (i + length A + length (wrap g)))); [|reflexivity].
    rewrite wrap_length in *. lia.
  - apply Scanned_done. exact Hs.
Qed.

Lemma execAll_Scanned_0 (s : text) : Scanned 0 s (execAll s 0).
Proof. exact (execAll_Scanned s 0). Qed.

(** Every match is an occurrence with a valid capture. *)
Lemma Scanned_valid (i : nat) (s : text) (ms : list RegExpMatch) :
  Scanned i s ms ->
  Forall (fun m => validInner (inner m) /\ fullMatch m = wrap (inner m)) ms.
Proof.
  induction 1; constructor; auto.
Qed.

(** A match of the loop sits in the subject at its index. *)
Lemma Scanned_at (i : nat) (s : text) (ms : list RegExpMatch) :
  Scanned i s ms ->
  forall m, In m ms ->
    i <= index m /\
    index m + length (fullMatch m) <= i + length s /\
    slice s (index m - i) (index m - i + length (fullMatch m)) = fullMatch m.
Proof.
  induction 1 as [i s Hs | i A g r ms Hs Hv Hrest IH]; intros m Hin;
    [destruct Hin|].
  destruct Hin as [<- | Hin].
  - unfold mkMatch. simpl index. simpl fullMatch.
    repeat split; [lia | rewrite !length_app; lia |].
    unfold slice.
    replace (i + length A - i) with (length A) by lia.
    rewrite skipn_app_exact.
    replace (length A + length (wrap g) - length A) with (length (wrap g)) by lia.
    apply firstn_app_exact.
  - destruct (IH m Hin) as (H1 & H2 & H3).
    repeat split; [lia | rewrite !length_app; lia |].
    unfold slice in *.
    replace (index m - i)
      with ((index m - (i + length A + length (wrap g))) + length (A ++ wrap g))
      by (rewrite length_app; lia).
    rewrite <- skipn_skipn, app_assoc, skipn_app_exact.
    rewrite <- H3 at 2. f_equal. lia.
Qed.

(** ** The replacements collected by the scanning loop *)

Section ScanningLoop.

Variable h : Host.
Variable activePath : text.

Lemma collectFrom_acc (ms : list RegExpMatch) (acc : list Replacement) :
  collectFrom h activePath ms acc =
  match collectFrom h activePath ms [] with
  | Normal l => Normal (acc ++ l)
  | Throw e => Throw e
  end.
Proof.
  revert acc. induction ms as [|m ms IH]; intros acc; simpl.
  - rewrite app_nil_r. reflexivity.
  - destruct (replacementFor h activePath m) as [[r|]|e]; [| apply IH | reflexivity].
    rewrite IH, (IH [r]).
    destruct (collectFrom h activePath ms []); [|reflexivity].
    rewrite <- app_assoc. reflexivity.
Qed.

Lemma collectFrom_cons (m : RegExpMatch) (ms : list RegExpMatch) :
  collectFrom h activePath (m :: ms) [] =
  match replacementFor h activePath m with
  | Throw e => Throw e
  | Normal o =>
      match collectFrom h activePath ms [] with
      | Normal l => Normal (optList o ++ l)
      | Throw e => Throw e
      end
  end.
Proof.
  simpl. destruct (replacementFor h activePath m) as [[r|]|e]; try reflexivity.
  - rewrite collectFrom_acc. reflexivity.
  - destruct (collectFrom h activePath ms []); reflexivity.
Qed.

(** When the body of the loop pushes a replacement. *)
Lemma replacementFor_Some (m : RegExpMatch) (r : Replacement) :
  replacementFor h activePath m = Normal (Some r) <->
  includes (inner m) SLASH = false /\
  exists p,
    canonicalPath h activePath (inner m) = Some p /\
    wrap p <> fullMatch m /\
    r = {| start := index m; end_ := index m + length (fullMatch m);
           replacement := wrap p |}.
Proof.
  unfold replacementFor, canonicalPath.
  destruct (includes (inner m) SLASH).
  - split; [discriminate | intros [H _]; discriminate].
  - destruct (getFirstLinkpathDest h (inner m) activePath) as [[[path|path]|]|e];
      try (split; [discriminate | intros [_ (p & H & _)]; discriminate]).
    destruct (text_eqb (wrap (stripMd path)) (fullMatch m)) eqn:E; simpl.
    + apply text_eqb_eq in E. split; [discriminate|].
      intros [_ (p & H & Hne & _)]. injection H as <-. contradiction.
    + apply text_eqb_neq in E. split.
      * intros H. injection H as <-. split; [reflexivity|].
        exists (stripMd path). auto.
      * intros [_ (p & H & Hne & ->)]. injection H as <-. reflexivity.
Qed.

(** When the body of the loop leaves the occurrence alone. *)
Lemma replacementFor_None (m : RegExpMatch) :
  replacementFor h activePath m = Normal None <->
  includes (inner m) SLASH = true \/
  (exists r, getFirstLinkpathDest h (inner m) activePath = Normal r /\
             canonicalPath h activePath (inner m) = None) \/
  (exists p, canonicalPath h activePath (inner m) = Some p /\
             wrap p = fullMatch m).
Proof.
  unfold replacementFor, canonicalPath.
  destruct (includes (inner m) SLASH); [split; auto|].
  destruct (getFirstLinkpathDest h (inner m) activePath) as [[[path|path]|]|e].
  - destruct (text_eqb (wrap (stripMd path)) (fullMatch m)) eqn:E; simpl.
    + apply text_eqb_eq in E. split; [|reflexivity].
      intros _. right. right. exists (stripMd path). auto.
    + apply text_eqb_neq in E. split; [discriminate|].
      intros [H|[(r & _ & H)|(p & H & Hp)]]; try discriminate.
      injection H as <-. contradiction.
  - split; [|reflexivity]. intros _. right. left. eexists. split; reflexivity.
  - split; [|reflexivity]. intros _. right. left. eexists. split; reflexivity.
  - split; [discriminate|].
    intros [H|[(r & H & _)|(p & H & _)]]; discriminate.
Qed.

Lemma Ops_prepend (B : text) (i : nat) (r : text) (ops : list Replacement) :
  Ops (i + length B) r ops -> Ops i (B ++ r) ops.
Proof.
  intros H. inversion H as [|i0 s0 A g p r0 st en ops0 Hs Hst Hen Hg Hp Hrest];
    subst; [constructor|].
  apply Ops_cons with (A := B ++ A) (g := g) (r := r0); auto.
  - rewrite <- app_assoc. reflexivity.
  - rewrite length_app. lia.
Qed.

(** The replacements the loop collects lie on occurrences of the subject,
    from left to right. *)
Lemma collect_Ops (i : nat) (s : text) (ms : list RegExpMatch) :
  Scanned i s ms ->
  forall ops, collectFrom h activePath ms [] = Normal ops -> Ops i s ops.
Proof.
  induction 1 as [i s Hs | i A g r ms Hs Hv Hrest IH]; intros ops Hc.
  - simpl in Hc. injection Hc as <-. constructor.
  - rewrite collectFrom_cons in Hc.
    destruct (replacementFor h activePath (mkMatch (i + length A) g))
      as [o|e] eqn:Hr; [|discriminate].
    destruct (collectFrom h activePath ms []) as [l|e]; [|discriminate].
    injection Hc as <-. specialize (IH l eq_refl).
    destruct o as [o|]; cbn [optList app].
    + apply replacementFor_Some in Hr.
      destruct Hr as [_ (p & _ & Hne & ->)]. cbn [mkMatch index fullMatch] in *.
      apply Ops_cons with (A := A) (g := g) (r := r); auto.
      * apply Hv.
      * intros ->. contradiction.
    + rewrite app_assoc. apply Ops_prepend.
      rewrite length_app, Nat.add_assoc. exact IH.
Qed.

End ScanningLoop.

Lemma Ops_bounds (i : nat) (s : text) (ops : list Replacement) :
  Ops i s ops ->
  Forall (fun o => i <= start o /\ start o < end_ o /\ end_ o <= i + length s) ops.
Proof.
  induction 1 as [|i s A g p r st en ops Hs Hst Hen Hg Hp Hrest IH];
    constructor.
  - subst. cbn [start end_]. rewrite !length_app, wrap_length. lia.
  - eapply Forall_impl; [|exact IH]. subst.
    intros o. cbn beta. rewrite !length_app, wrap_length. lia.
Qed.

Lemma Ops_cons_bounds (i : nat) (s : text) (o : Replacement)
    (ops : list Replacement) :
  Ops i s (o :: ops) -> Forall (fun x => end_ o <= start x) ops.
Proof.
  intros H. inversion H; subst. cbn [end_].
  eapply Forall_impl; [|eapply Ops_bounds; eassumption].
  intros x. cbn beta. lia.
Qed.

Lemma Ops_tail (i : nat) (s : text) (o : Replacement) (ops : list Replacement) :
  Ops i s (o :: ops) -> Ops (end_ o) (skipn (end_ o - i) s) ops.
Proof.
  intros H. inversion H as [|i0 s0 A g p r st en ops0 Hs Hst Hen Hg Hp Hrest];
    subst. cbn [end_].
  replace (i + length A + length (wrap g) - i) with (length (A ++ wrap g))
    by (rewrite length_app; lia).
  rewrite app_assoc, skipn_app_exact. exact Hrest.
Qed.

(** ** Sorting and splicing *)

Lemma insertDesc_last (r : Replacement) (l : list Replacement) :
  Forall (fun x => start r < start x) l -> insertDesc r l = l ++ [r].
Proof.
  induction 1 as [|x l Hx Hl IH]; simpl; [reflexivity|].
  destruct (start x <=? start r) eqn:E.
  - apply Nat.leb_le in E. lia.
  - rewrite IH. reflexivity.
Qed.

(** The collected replacements are in ascending order of [start], so the
    descending sort reverses them. *)
Lemma sortDesc_Ops (i : nat) (s : text) (ops : list Replacement) :
  Ops i s ops -> sortDesc ops = rev ops.
Proof.
  induction 1 as [|i s A g p r st en ops Hs Hst Hen Hg Hp Hrest IH];
    [reflexivity|].
  cbn [sortDesc fold_right rev]. unfold sortDesc in IH. rewrite IH.
  apply insertDesc_last.
  apply Forall_rev. eapply Forall_impl; [|eapply Ops_bounds; exact Hrest].
  intros x. cbn [start]. subst. rewrite wrap_length. lia.
Qed.

Lemma rebuild_cons (i : nat) (A g p r : text) (ops : list Replacement) :
  rebuild i (A ++ wrap g ++ r)
    ({| start := i + length A; end_ := i + length A + length (wrap g);
        replacement := wrap p |} :: ops)
  = A ++ wrap p ++ rebuild (i + length A + length (wrap g)) r ops.
Proof.
  cbn [rebuild start end_ replacement].
  replace (i + length A - i) with (length A) by lia.
  rewrite firstn_app_exact.
  replace (i + length A + length (wrap g) - i) with (length (A ++ wrap g))
    by (rewrite length_app; lia).
  rewrite (app_assoc A (wrap g) r), skipn_app_exact. reflexivity.
Qed.

(** Splicing from the rightmost replacement to the leftmost one makes all
    the replacements at the offsets recorded in the original text. *)
Lemma splice_rebuild (i : nat) (s : text) (ops : list Replacement) :
  Ops i s ops ->
  forall P, length P = i ->
    fold_left splice (rev ops) (P ++ s) = P ++ rebuild i s ops.
Proof.
  induction 1 as [|i s A g p r st en ops Hs Hst Hen Hg Hp Hrest IH];
    intros P HP; [reflexivity|].
  subst. rewrite rebuild_cons.
  cbn [rev]. rewrite fold_left_app. cbn [fold_left].
  replace (P ++ A ++ wrap g ++ r) with ((P ++ A ++ wrap g) ++ r)
    by (rewrite <- !app_assoc; reflexivity).
  rewrite IH by (rewrite !length_app; lia).
  unfold splice, slice, sliceFrom. cbn [start end_ replacement skipn].
  rewrite Nat.sub_0_r.
  replace (length P + length A) with (length (P ++ A))
    by (rewrite length_app; lia).
  replace ((P ++ A ++ wrap g) ++ rebuild (length (P ++ A) + length (wrap g)) r ops)
    with ((P ++ A) ++ wrap g ++ rebuild (length (P ++ A) + length (wrap g)) r ops)
    by (rewrite <- !app_assoc; reflexivity).
  rewrite firstn_app_exact.
  replace (length (P ++ A) + length (wrap g)) with (length ((P ++ A) ++ wrap g))
    by (rewrite (length_app (P ++ A)); reflexivity).
  rewrite (app_assoc (P ++ A) (wrap g)), skipn_app_exact.
  rewrite <- !app_assoc. reflexivity.
Qed.

(** What lines 273-280 compute from the replacements of the scan. *)
Lemma applyReplacements_Ops (s : text) (ops : list Replacement) :
  Ops 0 s ops ->
  applyReplacements s ops =
  match ops with
  | [] => ([], s, false)
  | _ :: _ => (rev ops, rebuild 0 s ops, true)
  end.
Proof.
  intros H. unfold applyReplacements. destruct ops as [|o ops]; [reflexivity|].
  cbn [length Nat.ltb Nat.leb].
  rewrite (sortDesc_Ops _ _ _ H).
  change s with ([] ++ s) at 1.
  rewrite (splice_rebuild _ _ _ H [] eq_refl). reflexivity.
Qed.

Lemma collectReplacements_Ops (h : Host) (activePath original : text)
    (ops : list Replacement) :
  collectReplacements h activePath original = Normal ops -> Ops 0 original ops.
Proof.
  apply collect_Ops. apply execAll_Scanned_0.
Qed.

Lemma newContentOf_Ops (s : text) (ops : list Replacement) :
  Ops 0 s ops -> newContentOf s ops = rebuild 0 s ops.
Proof.
  intros H. unfold newContentOf. rewrite (applyReplacements_Ops _ _ H).
  destruct ops; reflexivity.
Qed.

(** ** Lengths, counts and the shift of offsets *)

Lemma count_app (c : char) (a b : text) : count c (a ++ b) = count c a + count c b.
Proof. induction a as [|x a IH]; simpl; [reflexivity|]. rewrite IH. lia. Qed.

Lemma count_0 (c : char) (s : text) : count c s = 0 <-> ~ In c s.
Proof.
  induction s as [|x s IH]; simpl; [tauto|].
  destruct (char_eqb x c) eqn:E; char_facts.
  - split; [lia | tauto].
  - simpl. rewrite IH. tauto.
Qed.

Lemma count_wrap (p : text) : count RBRACKET (wrap p) = count RBRACKET p + 2.
Proof.
  unfold wrap. cbn [count].
  pose proof (proj2 (char_eqb_neq LBRACKET RBRACKET) LBRACKET_neq_RBRACKET) as E.
  rewrite E, count_app. cbn [count]. rewrite char_eqb_refl. lia.
Qed.

Lemma rebuild_count_ge (i : nat) (s : text) (ops : list Replacement) :
  Ops i s ops -> count RBRACKET s <= count RBRACKET (rebuild i s ops).
Proof.
  induction 1 as [|i s A g p r st en ops Hs Hst Hen Hg Hp Hrest IH];
    [cbn [rebuild]; lia|].
  subst. rewrite rebuild_cons, !count_app, !count_wrap.
  apply count_0 in Hg. lia.
Qed.

(** Replacements always change the text: the test [newContent !== original]
    of line 282 cannot fail once a replacement was recorded. *)
Lemma rebuild_neq (i : nat) (s : text) (o : Replacement) (ops : list Replacement) :
  Ops i s (o :: ops) -> rebuild i s (o :: ops) <> s.
Proof.
  intros H. inversion H as [|i0 s0 A g p r st en ops0 Hs Hst Hen Hg Hp Hrest].
  subst. rewrite rebuild_cons. intros Heq.
  apply app_inv_head in Heq.
  pose proof (rebuild_count_ge _ _ _ Hrest) as Hge.
  destruct (in_dec N.eq_dec RBRACKET p) as [Hin|Hnin].
  - apply (f_equal (count RBRACKET)) in Heq.
    rewrite !count_app, !count_wrap in Heq.
    apply count_0 in Hg.
    assert (count RBRACKET p <> 0) by (rewrite count_0; tauto).
    lia.
  - rewrite !wrap_app in Heq. injection Heq as Heq.
    apply first_rbracket_unique in Heq; [|assumption|assumption].
    destruct Heq as [Heq _]. contradiction.
Qed.

Lemma sumZ_app (a b : list Z) : sumZ (a ++ b) = (sumZ a + sumZ b)%Z.
Proof. induction a as [|x a IH]; simpl; [reflexivity|]. rewrite IH. lia. Qed.

Lemma shiftBefore_cons (o : Replacement) (ops : list Replacement) (c : nat) :
  shiftBefore (o :: ops) c =
  Z.add (if start o <? c then delta o else 0%Z) (shiftBefore ops c).
Proof.
  unfold shiftBefore. simpl. destruct (start o <? c); reflexivity.
Qed.

Lemma shiftBefore_app (a b : list Replacement) (c : nat) :
  shiftBefore (a ++ b) c = (shiftBefore a c + shiftBefore b c)%Z.
Proof.
  unfold shiftBefore. rewrite filter_app, map_app, sumZ_app. reflexivity.
Qed.

Lemma shiftBefore_rev (ops : list Replacement) (c : nat) :
  shiftBefore (rev ops) c = shiftBefore ops c.
Proof.
  induction ops as [|o ops IH]; [reflexivity|].
  simpl rev. rewrite shiftBefore_app, IH, !shiftBefore_cons.
  unfold shiftBefore at 2. simpl. lia.
Qed.

(** The loop of lines 296-301 computes the sum of the changes of length of
    the replacements that start before the cursor. *)
Lemma deltaBefore_shiftBefore (ops : list Replacement) (c : nat) :
  deltaBefore ops c = shiftBefore ops c.
Proof.
  unfold deltaBefore.
  assert (H : forall acc,
             fold_left
               (fun d r =>
                  if start r <? c
                  then (d + (Z.of_nat (length (replacement r))
                             - (Z.of_nat (end_ r) - Z.of_nat (start r))))%Z
                  else d) ops acc
             = (acc + shiftBefore ops c)%Z).
  { induction ops as [|o ops IH]; intros acc.
    - unfold shiftBefore. simpl. lia.
    - simpl fold_left. rewrite IH, shiftBefore_cons. unfold delta.
      destruct (start o <? c); lia. }
  rewrite H. lia.
Qed.

Lemma shiftBefore_none (ops : list Replacement) (c : nat) :
  Forall (fun o => c <= start o) ops -> shiftBefore ops c = 0%Z.
Proof.
  induction 1 as [|o ops Ho Hops IH]; [reflexivity|].
  rewrite shiftBefore_cons, IH.
  destruct (start o <? c) eqn:E; [apply Nat.ltb_lt in E; lia | reflexivity].
Qed.

Lemma rebuild_length (i : nat) (s : text) (ops : list Replacement) :
  Ops i s ops ->
  Z.of_nat (length (rebuild i s ops))
  = (Z.of_nat (length s) + sumZ (map delta ops))%Z.
Proof.
  induction 1 as [|i s A g p r st en ops Hs Hst Hen Hg Hp Hrest IH].
  - simpl. lia.
  - subst. rewrite rebuild_cons. cbn [map sumZ]. unfold delta at 1.
    cbn [start end_ replacement].
    rewrite !length_app, !Nat2Z.inj_add, IH, !wrap_length. lia.
Qed.

(** ** Occurrences that the rewriter leaves alone *)

(** The replacements of a scan without exception are exactly those the body
    of the loop pushes for the matches visited. *)
Lemma collectFrom_spec (h : Host) (activePath : text) (ms : list RegExpMatch) :
  forall ops, collectFrom h activePath ms [] = Normal ops ->
  forall o, In o ops <->
            exists m, In m ms /\ replacementFor h activePath m = Normal (Some o).
Proof.
  induction ms as [|m0 ms IH]; intros ops Hc o.
  - simpl in Hc. injection Hc as <-. split; [intros [] | intros (m & [] & _)].
  - rewrite collectFrom_cons in Hc.
    destruct (replacementFor h activePath m0) as [o0|e] eqn:H0; [|discriminate].
    destruct (collectFrom h activePath ms []) as [l|e]; [|discriminate].
    injection Hc as <-. rewrite in_app_iff, (IH l eq_refl o). split.
    + intros [Hin | (m & Hin & Hr)].
      * destruct o0 as [o0|]; [|destruct Hin].
        destruct Hin as [<- | []]. exists m0. split; [left; reflexivity | exact H0].
      * exists m. split; [right; exact Hin | exact Hr].
    + intros (m & [<- | Hin] & Hr).
      * left. rewrite H0 in Hr. injection Hr as ->. left. reflexivity.
      * right. exists m. auto.
Qed.

(** Two matches of one scan are the same match or do not overlap. *)
Lemma Scanned_disjoint (i : nat) (s : text) (ms : list RegExpMatch) :
  Scanned i s ms ->
  forall m1 m2, In m1 ms -> In m2 ms ->
    m1 = m2 \/ lastIndexAfter m1 <= index m2 \/ lastIndexAfter m2 <= index m1.
Proof.
  induction 1 as [i s Hs | i A g r ms Hs Hv Hrest IH]; intros m1 m2 H1 H2;
    [destruct H1|].
  destruct H1 as [<- | H1], H2 as [<- | H2].
  - left. reflexivity.
  - right. left. destruct (Scanned_at _ _ _ Hrest m2 H2) as [Hi _].
    unfold lastIndexAfter, mkMatch. cbn [index fullMatch]. exact Hi.
  - right. right. destruct (Scanned_at _ _ _ Hrest m1 H1) as [Hi _].
    unfold lastIndexAfter, mkMatch. cbn [index fullMatch]. exact Hi.
  - apply IH; assumption.
Qed.

Lemma slice_app_l (X Y : text) (x y : nat) :
  y <= length X -> slice (X ++ Y) x y = slice X x y.
Proof.
  intros Hy. unfold slice. rewrite skipn_app, firstn_app, length_skipn.
  replace (y - x - (length X - x)) with 0 by lia.
  rewrite firstn_0, app_nil_r. reflexivity.
Qed.

Lemma slice_app_r (X Y : text) (x y : nat) :
  length X <= x -> slice (X ++ Y) x y = slice Y (x - length X) (y - length X).
Proof.
  intros Hx. unfold slice. rewrite skipn_app, skipn_all2 by exact Hx.
  rewrite app_nil_l. f_equal. lia.
Qed.

(** A stretch of the text that no replacement touches is found unchanged in
    the rebuilt text, moved by the changes of length before it. *)
Lemma Ops_frame (i : nat) (s : text) (ops : list Replacement) :
  Ops i s ops ->
  forall a b, i <= a -> a <= b -> b <= i + length s ->
    Forall (fun o => end_ o <= a \/ b <= start o) ops ->
    (0 <= Z.of_nat (a - i) + shiftBefore ops a)%Z /\
    slice (rebuild i s ops)
      (Z.to_nat (Z.of_nat (a - i) + shiftBefore ops a))
      (Z.to_nat (Z.of_nat (a - i) + shiftBefore ops a) + (b - a))
    = slice s (a - i) (b - i).
Proof.
  induction 1 as [|i s A g p r st en ops Hs Hst Hen Hg Hp Hrest IH];
    intros a b Hia Hab Hb Hall.
  - unfold shiftBefore. cbn [filter map sumZ rebuild].
    split; [lia|]. f_equal; lia.
  - inversion Hall as [|? ? Ho Hall']. subst. cbn [start end_] in Ho.
    rewrite rebuild_cons, shiftBefore_cons. cbn [start]. unfold delta.
    cbn [start end_ replacement].
    rewrite !length_app in Hb.
    assert (Hlt : i + length A < i + length A + length (wrap g))
      by (rewrite wrap_length; lia).
    destruct Ho as [Ho|Ho].
    + (* the replacement lies before the stretch *)
      destruct (IH a b Ho Hab ltac:(lia) Hall') as [Hpos Hslice].
      assert (E : (i + length A <? a) = true) by (apply Nat.ltb_lt; lia).
      rewrite E. split; [lia|].
      replace (Z.to_nat
                 (Z.of_nat (a - i)
                  + (Z.of_nat (length (wrap p))
                     - (Z.of_nat (i + length A + length (wrap g))
                        - Z.of_nat (i + length A))
                     + shiftBefore ops a)))
        with (length (A ++ wrap p)
              + Z.to_nat (Z.of_nat (a - (i + length A + length (wrap g)))
                          + shiftBefore ops a))
        by (rewrite length_app; lia).
      rewrite (app_assoc A (wrap p)), slice_app_r by lia.
      rewrite (app_assoc A (wrap g)), slice_app_r by (rewrite length_app; lia).
      transitivity (slice r (a - (i + length A + length (wrap g)))
                      (b - (i + length A + length (wrap g)))).
      * rewrite <- Hslice. f_equal; lia.
      * f_equal; rewrite length_app; lia.
    + (* the replacement lies after the stretch *)
      assert (E : (i + length A <? a) = false) by (apply Nat.ltb_ge; lia).
      rewrite E.
      rewrite shiftBefore_none.
      2:{ eapply Forall_impl; [|eapply Ops_bounds; exact Hrest].
          intros o. cbv beta. lia. }
      split; [lia|].
      replace (Z.to_nat (Z.of_nat (a - i) + (0 + 0))) with (a - i) by lia.
      rewrite !slice_app_l by lia. f_equal. lia.
Qed.

(** An occurrence for which the body of the loop pushes nothing keeps out of
    every replacement, and its text is in the new content at the offset to
    which its index is remapped. *)
Lemma untouched_occurrence (h : Host) (activePath original : text)
    (ops : list Replacement) (m : RegExpMatch) :
  collectReplacements h activePath original = Normal ops ->
  In m (execAll original 0) ->
  replacementFor h activePath m = Normal None ->
  Forall (fun o => end_ o <= index m \/ lastIndexAfter m <= start o) ops /\
  slice (newContentOf original ops)
    (Z.to_nat (Z.of_nat (index m) + shiftBefore ops (index m)))
    (Z.to_nat (Z.of_nat (index m) + shiftBefore ops (index m))
     + length (fullMatch m))
  = fullMatch m.
Proof.
  intros Hc Hin Hnone.
  pose proof (execAll_Scanned_0 original) as Hsc.
  pose proof (collectReplacements_Ops _ _ _ _ Hc) as Hops.
  destruct (Scanned_at _ _ _ Hsc m Hin) as (_ & Hend & Hslice).
  rewrite Nat.sub_0_r in Hslice.
  assert (Hdis : Forall (fun o => end_ o <= index m \/ lastIndexAfter m <= start o) ops).
  { apply Forall_forall. intros o Ho.
    apply (collectFrom_spec h activePath _ ops Hc) in Ho.
    destruct Ho as (m' & Hin' & Hr').
    pose proof Hr' as Hr. apply replacementFor_Some in Hr.
    destruct Hr as [_ (p & _ & _ & ->)]. cbn [start end_].
    destruct (Scanned_disjoint _ _ _ Hsc m' m Hin' Hin) as [-> | [H|H]].
    - congruence.
    - left. exact H.
    - right. exact H. }
  split; [exact Hdis|].
  rewrite (newContentOf_Ops _ _ Hops).
  destruct (Ops_frame _ _ _ Hops (index m) (lastIndexAfter m)) as [_ H].
  - lia.
  - unfold lastIndexAfter. lia.
  - exact Hend.
  - exact Hdis.
  - rewrite !Nat.sub_0_r in H. unfold lastIndexAfter in H.
    replace (index m + length (fullMatch m) - index m)
      with (length (fullMatch m)) in H by lia.
    rewrite H. exact Hslice.
Qed.

(** ** The runs of [handleEditorChange] *)

Lemma onEditorChange_run (h : Host) (w : World) :
  onEditorChange h w =
  match getActiveFile h with
  | None => w
  | Some activePath =>
      match collectReplacements h activePath (value (editor w)) with
      | Throw e => logged w e
      | Normal [] => w
      | Normal (o :: ops) =>
          let newContent := rebuild 0 (value (editor w)) (o :: ops) in
          let newOffset :=
            newOffsetOf (rev (o :: ops)) (cursor (editor w)) newContent in
          match setValueFault h newContent with
          | Some e => logged w e
          | None =>
              match setCursorFault h newOffset with
              | None =>
                  {| editor := {| value := newContent; cursor := newOffset |};
                     console := console w |}
              | Some _ =>
                  match setCursorFault h (length newContent) with
                  | None =>
                      {| editor := {| value := newContent;
                                      cursor := length newContent |};
                         console := console w |}
                  | Some e =>
                      logged
                        {| editor :=
                             {| value := newContent;
                                cursor := cursorAfterSetValue h (editor w) newContent |};
                           console := console w |} e
                  end
              end
          end
      end
  end.
Proof.
  unfold onEditorChange, handleEditorChange, tryCatch.
  destruct (getActiveFile h) as [activePath|]; [|destruct w; reflexivity].
  unfold bind, getValue, getCursorOffset, liftC.
  destruct (collectReplacements h activePath (value (editor w)))
    as [ops|e] eqn:Hc; [|reflexivity].
  pose proof (collectReplacements_Ops _ _ _ _ Hc) as Hops.
  rewrite (applyReplacements_Ops _ _ Hops).
  destruct ops as [|o ops]; [destruct w; reflexivity|].
  pose proof (rebuild_neq _ _ _ _ Hops) as Hneq.
  apply text_eqb_neq in Hneq. rewrite Hneq. cbn [andb negb].
  unfold setValue, setCursor, consoleError, logged. cbv zeta.
  destruct (setValueFault h (rebuild 0 (value (editor w)) (o :: ops)));
    [reflexivity|].
  cbn [editor console value].
  destruct (setCursorFault h
              (newOffsetOf (rev (o :: ops)) (cursor (editor w))
                 (rebuild 0 (value (editor w)) (o :: ops)))); [|reflexivity].
  destruct (setCursorFault h (length (rebuild 0 (value (editor w)) (o :: ops))));
    reflexivity.
Qed.

Lemma newOffsetOf_clamp (l : list Replacement) (c : nat) (newContent : text) :
  Z.of_nat (newOffsetOf l c newContent)
  = clamp 0 (Z.of_nat (length newContent)) (Z.of_nat c + shiftBefore l c).
Proof.
  unfold newOffsetOf, clamp. rewrite deltaBefore_shiftBefore. cbv zeta.
  destruct (Z.of_nat c + shiftBefore l c <? 0)%Z eqn:E1.
  - destruct (0 >? Z.of_nat (length newContent))%Z eqn:E2; lia.
  - destruct (Z.of_nat c + shiftBefore l c >? Z.of_nat (length newContent))%Z eqn:E2;
      destruct (Z.of_nat (length newContent) <? Z.of_nat c + shiftBefore l c)%Z eqn:E3;
      lia.
Qed.

(** ** The cursor after a rewrite *)

(** C3. When no host call throws, the cursor offset after the rewrite is the
    original offset plus the sum of [len(replacement) - (end - start)] over
    the replacements whose [start] is strictly less than the original
    offset, clamped into [0, len(newText)]; the document then holds the new
    text. The original offset is an offset into the document. *)
Theorem cursor_remapping (h : Host) (activePath : text) (w : World)
    (ops : list Replacement) :
  getActiveFile h = Some activePath ->
  collectReplacements h activePath (value (editor w)) = Normal ops ->
  editorNeverThrows h ->
  cursor (editor w) <= length (value (editor w)) ->
  let w' := onEditorChange h w in
  value (editor w') = newContentOf (value (editor w)) ops /\
  Z.of_nat (cursor (editor w'))
  = clamp 0 (Z.of_nat (length (value (editor w'))))
      (Z.of_nat (cursor (editor w)) + shiftBefore ops (cursor (editor w))).
Proof.
  intros Hfile Hc [Hsv Hsc] Hcur. cbv zeta.
  pose proof (collectReplacements_Ops _ _ _ _ Hc) as Hops.
  rewrite (newContentOf_Ops _ _ Hops).
  rewrite onEditorChange_run, Hfile, Hc.
  destruct ops as [|o ops].
  - split; [reflexivity|].
    unfold shiftBefore, clamp. simpl.
    destruct (Z.of_nat (cursor (editor w)) + 0 <? 0)%Z eqn:E1; [lia|].
    destruct (Z.of_nat (length (value (editor w)))
              <? Z.of_nat (cursor (editor w)) + 0)%Z eqn:E2; lia.
  - cbv zeta. rewrite Hsv, Hsc. cbn [editor value cursor].
    split; [reflexivity|].
    rewrite newOffsetOf_clamp, shiftBefore_rev. reflexivity.
Qed.

Lemma cursor_remapping_witness :
  Z.of_nat
    (cursor (editor (onEditorChange projectHost
       {| editor := {| value := str "See [[Project]] for details."; cursor := 20 |};
          console := [] |})))
  = clamp 0 39 (20 + 11).
Proof.
  pose proof (cursor_remapping projectHost (str "notes/today.md")
    {| editor := {| value := str "See [[Project]] for details."; cursor := 20 |};
       console := [] |}
    [{| start := 4; end_ := 15; replacement := str "[[areas/work/Project]]" |}]
    eq_refl eq_refl (conj (fun _ => eq_refl) (fun _ => eq_refl))) as H.
  cbv zeta in H.
  assert (Hcur : 20 <= 28) by lia.
  destruct (H Hcur) as [_ H2]. exact H2.
Defined.

(** C9. If every replacement starts at or after the cursor, the cursor
    offset after the rewrite is the original cursor offset. *)
Theorem cursor_invariance (h : Host) (w : World) :
  editorNeverThrows h ->
  (forall activePath ops,
     getActiveFile h = Some activePath ->
     collectReplacements h activePath (value (editor w)) = Normal ops ->
     Forall (fun o => cursor (editor w) <= start o) ops) ->
  cursor (editor (onEditorChange h w)) = cursor (editor w).
Proof.
  intros [Hsv Hsc] Hall. rewrite onEditorChange_run.
  destruct (getActiveFile h) as [activePath|] eqn:Hfile; [|reflexivity].
  destruct (collectReplacements h activePath (value (editor w)))
    as [ops|e] eqn:Hc; [|reflexivity].
  specialize (Hall activePath ops eq_refl Hc).
  pose proof (collectReplacements_Ops _ _ _ _ Hc) as Hops.
  destruct ops as [|o ops]; [reflexivity|].
  cbv zeta. rewrite Hsv, Hsc. cbn [editor cursor].
  apply Nat2Z.inj. rewrite newOffsetOf_clamp, shiftBefore_rev.
  rewrite (shiftBefore_none _ _ Hall).
  assert (Hlen : cursor (editor w) <= length (rebuild 0 (value (editor w)) (o :: ops))).
  { inversion Hops as [|i0 s0 A g p r st en ops0 Hs Hst Hen Hg Hp Hrest]. subst.
    rewrite Hs, rebuild_cons, length_app.
    inversion Hall as [|? ? Ho _]. cbn [start] in Ho. lia. }
  unfold clamp.
  destruct (Z.of_nat (cursor (editor w)) + 0 <? 0)%Z eqn:E1; [lia|].
  destruct (Z.of_nat (length (rebuild 0 (value (editor w)) (o :: ops)))
            <? Z.of_nat (cursor (editor w)) + 0)%Z eqn:E2; lia.
Qed.

Lemma cursor_invariance_witness :
  cursor (editor (onEditorChange projectHost (projectWorld 2))) = 2.
Proof.
  apply (cursor_invariance projectHost (projectWorld 2)).
  - split; intros; reflexivity.
  - intros activePath ops Hfile Hc. injection Hfile as <-.
    vm_compute in Hc. injection Hc as <-.
    repeat constructor.
Defined.

(** ** Faults *)






(** ** Full paths and unresolvable names *)

(** C5. For an occurrence whose inner text contains a separator the body of
    the scanning loop pushes no replacement, whatever the link index; no
    replacement of the scan overlaps the occurrence, and its text is in the
    new content unchanged, at the offset to which its index is remapped. *)
Theorem full_path_preservation (h : Host) (activePath original : text)
    (m : RegExpMatch) :
  In m (execAll original 0) ->
  includes (inner m) SLASH = true ->
  replacementFor h activePath m = Normal None /\
  forall ops,
    collectReplacements h activePath original = Normal ops ->
    (forall o, In o ops -> end_ o <= index m \/ lastIndexAfter m <= start o) /\
    slice (newContentOf original ops)
      (remap ops (index m)) (remap ops (index m) + length (fullMatch m))
    = fullMatch m.
Proof.
  intros Hin Hslash.
  assert (Hnone : replacementFor h activePath m = Normal None).
  { unfold replacementFor. rewrite Hslash. reflexivity. }
  split; [exact Hnone|].
  intros ops Hc.
  destruct (untouched_occurrence h activePath original ops m Hc Hin Hnone)
    as [Hdis Hslice].
  split; [|exact Hslice].
  apply Forall_forall. exact Hdis.
Qed.

Lemma full_path_preservation_witness :
  slice (str "[[areas/work/Project]] and [[a/b]].") 27 34 = str "[[a/b]]".
Proof.
  destruct (full_path_preservation projectHost (str "notes/today.md")
              (str "[[Project]] and [[a/b]].") (mkMatch 16 (str "a/b")))
    as [_ H].
  - vm_compute. auto.
  - reflexivity.
  - destruct (H [{| start := 0; end_ := 11;
                    replacement := str "[[areas/work/Project]]" |}] eq_refl)
      as [_ H2].
    exact H2.
Defined.

(** C8. An occurrence for which the link index has no regular file keeps
    its literal text: no replacement of the scan overlaps it and its text is
    in the new content at the offset to which its index is remapped. The
    other occurrences are processed all the same: every short occurrence
    that resolves to a different wikilink gets its replacement. *)
Theorem unresolvable_preservation (h : Host) (activePath original : text)
    (ops : list Replacement) (m : RegExpMatch) :
  collectReplacements h activePath original = Normal ops ->
  In m (execAll original 0) ->
  unresolvable h activePath (inner m) ->
  (forall o, In o ops -> end_ o <= index m \/ lastIndexAfter m <= start o) /\
  slice (newContentOf original ops)
    (remap ops (index m)) (remap ops (index m) + length (fullMatch m))
  = fullMatch m /\
  (forall m' p,
     In m' (execAll original 0) ->
     includes (inner m') SLASH = false ->
     canonicalPath h activePath (inner m') = Some p ->
     wrap p <> fullMatch m' ->
     In {| start := index m'; end_ := lastIndexAfter m'; replacement := wrap p |}
        ops).
Proof.
  intros Hc Hin Hun.
  assert (Hnone : replacementFor h activePath m = Normal None).
  { unfold replacementFor.
    destruct (includes (inner m) SLASH); [reflexivity|].
    destruct Hun as [-> | [path ->]]; reflexivity. }
  destruct (untouched_occurrence h activePath original ops m Hc Hin Hnone)
    as [Hdis Hslice].
  split; [apply Forall_forall; exact Hdis|].
  split; [exact Hslice|].
  intros m' p Hin' Hslash Hp Hne.
  apply (collectFrom_spec h activePath _ ops Hc).
  exists m'. split; [exact Hin'|].
  apply replacementFor_Some. split; [exact Hslash|].
  exists p. auto.
Qed.

Lemma unresolvable_preservation_witness :
  slice (str "[[areas/work/Project]] and [[Missing]].") 27 38 = str "[[Missing]]" /\
  In {| start := 0; end_ := 11; replacement := str "[[areas/work/Project]]" |}
     [{| start := 0; end_ := 11; replacement := str "[[areas/work/Project]]" |}].
Proof.
  destruct (unresolvable_preservation projectHost (str "notes/today.md")
              (str "[[Project]] and [[Missing]].")
              [{| start := 0; end_ := 11;
                  replacement := str "[[areas/work/Project]]" |}]
              (mkMatch 16 (str "Missing")))
    as (_ & H2 & H3).
  - reflexivity.
  - vm_compute. auto.
  - left. reflexivity.
  - split; [exact H2|].
    apply (H3 (mkMatch 0 (str "Project")) (str "areas/work/Project")).
    + vm_compute. auto.
    + reflexivity.
    + reflexivity.
    + vm_compute. discriminate.
Defined.

(** ** The ranges the concealer builds *)

Lemma decorateFrom_spec (from : nat) (ms : list RegExpMatch)
    (builder : list HiddenRange) :
  decorateFrom from ms builder = builder ++ decorationsOf from ms.
Proof.
  revert builder. induction ms as [|m ms IH]; intros builder; simpl.
  - rewrite app_nil_r. reflexivity.
  - destruct (decorationFor from m) as [d|]; rewrite IH; simpl.
    + rewrite <- app_assoc. reflexivity.
    + reflexivity.
Qed.

Lemma decorateRanges_spec (t : text) (rs : list VisibleRange)
    (builder : list HiddenRange) :
  decorateRanges t rs builder =
  builder
  ++ flat_map (fun r => decorationsOf (from r) (execAll (slice t (from r) (to r)) 0)) rs.
Proof.
  revert builder. induction rs as [|r rs IH]; intros builder; simpl.
  - rewrite app_nil_r. reflexivity.
  - rewrite IH, decorateFrom_spec, <- app_assoc. reflexivity.
Qed.

(** The decorations are the ranges of the matches of each visible slice, in
    the order of the visible ranges and of the scan. *)
Lemma buildDecorations_spec (view : EditorView) :
  snd (buildDecorations true view) =
  flat_map
    (fun r => decorationsOf (from r)
                (execAll (slice (doc view) (from r) (to r)) 0))
    (visibleRanges view).
Proof.
  unfold buildDecorations. simpl. apply decorateRanges_spec.
Qed.

Lemma slice_length (s : text) (a b : nat) : length (slice s a b) <= b - a.
Proof. unfold slice. rewrite length_firstn. lia. Qed.

Lemma slice_slice (s : text) (a b x y : nat) :
  y <= length (slice s a b) ->
  slice (slice s a b) x y = slice s (a + x) (a + y).
Proof.
  intros Hy. pose proof (slice_length s a b) as Hl. unfold slice in *.
  rewrite skipn_firstn_comm, firstn_firstn, skipn_skipn.
  f_equal; [lia | f_equal; lia].
Qed.

Lemma nth_error_slice (s : text) (a b j : nat) :
  j < b - a -> nth_error (slice s a b) j = nth_error s (a + j).
Proof.
  intros Hj. unfold slice.
  rewrite nth_error_firstn.
  destruct (j <? b - a) eqn:E; [|apply Nat.ltb_ge in E; lia].
  apply nth_error_skipn.
Qed.

Lemma nth_error_wrap (g : text) (k : nat) :
  k < length g -> nth_error (wrap g) (2 + k) = nth_error g k.
Proof.
  intros Hk. unfold wrap. simpl. apply nth_error_app1. exact Hk.
Qed.

(** A match of a visible slice is an occurrence of the document. *)
Lemma slice_match_in_doc (t : text) (r : VisibleRange) (m : RegExpMatch) :
  In m (execAll (slice t (from r) (to r)) 0) ->
  validInner (inner m) /\
  fullMatch m = wrap (inner m) /\
  from r + lastIndexAfter m <= from r + length (slice t (from r) (to r)) /\
  slice t (from r + index m) (from r + lastIndexAfter m) = wrap (inner m).
Proof.
  intros Hin.
  pose proof (execAll_Scanned_0 (slice t (from r) (to r))) as Hsc.
  pose proof (Scanned_valid _ _ _ Hsc) as Hv.
  rewrite Forall_forall in Hv. destruct (Hv m Hin) as [Hvalid Hfull].
  destruct (Scanned_at _ _ _ Hsc m Hin) as (_ & Hend & Hslice).
  rewrite Nat.sub_0_r in Hslice. simpl in Hend.
  repeat split; try assumption.
  - apply Hvalid.
  - apply Hvalid.
  - unfold lastIndexAfter. lia.
  - unfold lastIndexAfter.
    rewrite <- (slice_slice t (from r) (to r)) by exact Hend.
    rewrite Hslice. exact Hfull.
Qed.

(** C6. With the setting off, [buildDecorations] returns no range, whatever
    the document and the visible ranges; so the plugin holds no range when
    it is constructed with the setting off, and the first update after the
    setting was turned off drops the ranges built before. *)
Theorem concealment_empty_when_disabled (v : EditorView) :
  buildDecorations false v = (false, []) /\
  decorations (construct false v) = [] /\
  (forall this u,
     _lastSetting this = true ->
     decorations (update false this u) = [] /\
     _lastSetting (update false this u) = false).
Proof.
  split; [reflexivity|]. split; [reflexivity|].
  intros this u Hlast. unfold update. rewrite Hlast. cbn [Bool.eqb negb].
  rewrite !orb_true_r. cbn. auto.
Qed.

Lemma concealment_empty_when_disabled_witness :
  decorations
    (update false
       (construct true
          {| doc := str "Link: [[areas/work/Project]]";
             visibleRanges := [{| from := 0; to := 28 |}] |})
       {| docChanged := false; viewportChanged := false;
          view := {| doc := str "Link: [[areas/work/Project]]";
                     visibleRanges := [{| from := 0; to := 28 |}] |} |})
  = [].
Proof.
  destruct (concealment_empty_when_disabled
              {| doc := str "Link: [[areas/work/Project]]";
                 visibleRanges := [{| from := 0; to := 28 |}] |})
    as (_ & _ & H).
  apply H. reflexivity.
Defined.

(** C4. For an occurrence found in a visible slice: if its inner text has no
    separator no range is emitted for it; if it has one, the range emitted
    for it starts just after the opening brackets, its last offset is the
    last '/' of the inner text, and it ends before the closing brackets.
    These are all the ranges: one for each such occurrence. *)
Theorem concealment_range_containment (view : EditorView) (r : VisibleRange)
    (m : RegExpMatch) :
  In r (visibleRanges view) ->
  In m (execAll (slice (doc view) (from r) (to r)) 0) ->
  let start := from r + index m in
  let innerStart := start + 2 in
  let closeAt := innerStart + length (inner m) in
  snd (buildDecorations true view)
  = flat_map
      (fun r => flat_map (fun m => optList (decorationFor (from r) m))
                  (execAll (slice (doc view) (from r) (to r)) 0))
      (visibleRanges view) /\
  slice (doc view) start (closeAt + 2) = wrap (inner m) /\
  (includes (inner m) SLASH = false -> decorationFor (from r) m = None) /\
  (includes (inner m) SLASH = true ->
   exists k,
     lastIndexOf (inner m) SLASH = Some k /\
     decorationFor (from r) m
     = Some {| rFrom := innerStart; rTo := innerStart + k + 1 |} /\
     In {| rFrom := innerStart; rTo := innerStart + k + 1 |}
        (snd (buildDecorations true view)) /\
     nth_error (doc view) (innerStart + k) = Some SLASH /\
     (forall j, innerStart + k < j -> j < closeAt ->
                nth_error (doc view) j <> Some SLASH) /\
     innerStart + k + 1 <= closeAt).
Proof.
  intros Hr Hm. cbv zeta.
  destruct (slice_match_in_doc (doc view) r m Hm) as (Hv & Hfull & _ & Hslice).
  assert (Hclose : from r + lastIndexAfter m
                   = from r + index m + 2 + length (inner m) + 2).
  { unfold lastIndexAfter. rewrite Hfull, wrap_length. lia. }
  rewrite Hclose in Hslice.
  split; [apply buildDecorations_spec|].
  split; [exact Hslice|].
  split.
  - intros Hno. unfold decorationFor. rewrite Hno. reflexivity.
  - intros Hyes.
    destruct (lastIndexOf (inner m) SLASH) as [k|] eqn:Hk.
    2:{ apply lastIndexOf_None in Hk. apply includes_In in Hyes. contradiction. }
    destruct (lastIndexOf_Some _ _ _ Hk) as (Hnth & Hlt & Hlast).
    assert (Hdec : decorationFor (from r) m
                   = Some {| rFrom := from r + index m + 2;
                             rTo := from r + index m + 2 + k + 1 |}).
    { unfold decorationFor. rewrite Hyes, Hk. reflexivity. }
    assert (Hdoc : forall j, j < length (inner m) ->
              nth_error (doc view) (from r + index m + 2 + j)
              = nth_error (inner m) j).
    { intros j Hj.
      rewrite <- (nth_error_wrap (inner m) j Hj), <- Hslice.
      rewrite nth_error_slice by lia. f_equal. lia. }
    exists k. repeat split.
    + exact Hdec.
    + rewrite buildDecorations_spec. apply in_flat_map.
      exists r. split; [exact Hr|].
      unfold decorationsOf. apply in_flat_map.
      exists m. split; [exact Hm|]. rewrite Hdec. left. reflexivity.
    + rewrite Hdoc by exact Hlt. exact Hnth.
    + intros j Hj1 Hj2.
      replace j with (from r + index m + 2 + (j - (from r + index m + 2))) by lia.
      rewrite Hdoc by lia. apply Hlast. lia.
    + lia.
Qed.

Lemma concealment_range_containment_witness :
  In {| rFrom := 8; rTo := 19 |}
     (snd (buildDecorations true
             {| doc := str "Link: [[areas/work/Project]]";
                visibleRanges := [{| from := 0; to := 28 |}] |})) /\
  nth_error (str "Link: [[areas/work/Project]]") 18 = Some SLASH.
Proof.
  destruct (concealment_range_containment
              {| doc := str "Link: [[areas/work/Project]]";
                 visibleRanges := [{| from := 0; to := 28 |}] |}
              {| from := 0; to := 28 |}
              (mkMatch 6 (str "areas/work/Project")))
    as (_ & _ & _ & H).
  - left. reflexivity.
  - vm_compute. auto.
  - destruct (H eq_refl) as (k & Hk & _ & Hin & Hnth & _).
    vm_compute in Hk. injection Hk as <-.
    split; [exact Hin | exact Hnth].
Defined.

Lemma Chained_bounds (lo hi : nat) (ds : list HiddenRange) :
  Chained lo hi ds -> lo <= hi.
Proof. induction 1; lia. Qed.

Lemma Chained_weaken (lo hi lo' hi' : nat) (ds : list HiddenRange) :
  Chained lo hi ds -> lo' <= lo -> hi <= hi' -> Chained lo' hi' ds.
Proof.
  intros H. revert lo'. induction H as [lo hi Hle | lo hi d ds H1 H2 H3 IH];
    intros lo' Hlo Hhi.
  - constructor. lia.
  - constructor; [lia | exact H2 | apply IH; [lia | exact Hhi]].
Qed.

Lemma Chained_app (lo mid hi : nat) (ds1 ds2 : list HiddenRange) :
  Chained lo mid ds1 -> Chained mid hi ds2 -> Chained lo hi (ds1 ++ ds2).
Proof.
  induction 1 as [lo mid Hle | lo mid d ds H1 H2 H3 IH]; intros H; simpl.
  - eapply Chained_weaken; [exact H | exact Hle | lia].
  - constructor; auto.
Qed.

(** The ranges of one slice follow the occurrences of its scan. *)
Lemma decorationsOf_Chained (i : nat) (s : text) (ms : list RegExpMatch) :
  Scanned i s ms ->
  forall from, Chained (from + i) (from + i + length s) (decorationsOf from ms).
Proof.
  induction 1 as [i s Hs | i A g r ms Hs Hv Hrest IH]; intros from.
  - constructor. lia.
  - specialize (IH from). unfold decorationsOf in *. cbn [flat_map].
    rewrite !length_app.
    assert (Htail : Chained (from + (i + length A + length (wrap g)))
                      (from + i + (length A + (length (wrap g) + length r)))
                      (flat_map (fun m => optList (decorationFor from m)) ms)).
    { eapply Chained_weaken; [exact IH | lia | lia]. }
    unfold decorationFor at 1. cbn [mkMatch inner index].
    destruct (includes g SLASH) eqn:Hi; cbn [negb optList app].
    + destruct (lastIndexOf g SLASH) as [k|] eqn:Hk.
      * destruct (lastIndexOf_Some _ _ _ Hk) as (_ & Hlt & _).
        constructor; cbn [rFrom rTo]; [lia | lia |].
        eapply Chained_weaken; [exact Htail | rewrite wrap_length; lia | lia].
      * apply lastIndexOf_None in Hk. apply includes_In in Hi. contradiction.
    + eapply Chained_weaken; [exact Htail | lia | lia].
Qed.

Lemma decorations_Chained (t : text) (rs : list VisibleRange) (lo : nat) :
  OrderedRanges lo rs ->
  exists hi,
    Chained lo hi
      (flat_map (fun r => decorationsOf (from r) (execAll (slice t (from r) (to r)) 0))
         rs).
Proof.
  induction 1 as [lo | lo r rs H1 H2 H3 [hi IH]].
  - exists lo. constructor. lia.
  - exists hi. cbn [flat_map].
    apply Chained_app with (mid := to r); [|exact IH].
    pose proof (decorationsOf_Chained _ _ _
                  (execAll_Scanned_0 (slice t (from r) (to r))) (from r)) as Hc.
    pose proof (slice_length t (from r) (to r)) as Hl.
    eapply Chained_weaken; [exact Hc | lia | lia].
Qed.

Lemma Chained_Forall (lo hi : nat) (ds : list HiddenRange) :
  Chained lo hi ds ->
  Forall (fun d => lo <= rFrom d /\ rFrom d < rTo d /\ rTo d <= hi) ds.
Proof.
  induction 1 as [lo hi Hle | lo hi d ds H1 H2 H3 IH]; constructor.
  - pose proof (Chained_bounds _ _ _ H3). lia.
  - eapply Forall_impl; [|exact IH]. intros x. cbv beta. lia.
Qed.

Lemma Chained_sorted (lo hi : nat) (ds : list HiddenRange) :
  Chained lo hi ds -> StronglySorted (fun a b => rTo a <= rFrom b) ds.
Proof.
  induction 1 as [lo hi Hle | lo hi d ds H1 H2 H3 IH]; constructor.
  - exact IH.
  - eapply Forall_impl; [|apply (Chained_Forall _ _ _ H3)].
    intros x. cbv beta. lia.
Qed.

(** C7. Over visible ranges that are disjoint and in document order, the
    ranges emitted are non-empty, pairwise non-overlapping (each ends before
    every later one starts) and in non-decreasing order of their starts. *)
Theorem concealment_ranges_ordered (view : EditorView) :
  OrderedRanges 0 (visibleRanges view) ->
  let ds := snd (buildDecorations true view) in
  Forall (fun d => rFrom d < rTo d) ds /\
  StronglySorted (fun a b => rTo a <= rFrom b) ds /\
  StronglySorted (fun a b => rFrom a <= rFrom b) ds.
Proof.
  intros Hord. cbv zeta. rewrite buildDecorations_spec.
  destruct (decorations_Chained (doc view) _ _ Hord) as [hi Hc].
  pose proof (Chained_Forall _ _ _ Hc) as Hf.
  pose proof (Chained_sorted _ _ _ Hc) as Hs.
  split; [|split].
  - eapply Forall_impl; [|exact Hf]. intros d. cbv beta. lia.
  - exact Hs.
  - clear Hc. induction Hs as [|d ds Hs IH Hd]; constructor.
    + apply IH. inversion Hf. assumption.
    + inversion Hf as [|? ? Hd0 _]. subst.
      eapply Forall_impl; [|exact Hd]. intros x. cbv beta. lia.
Qed.

Lemma concealment_ranges_ordered_witness :
  StronglySorted (fun a b => rTo a <= rFrom b)
    (snd (buildDecorations true
            {| doc := str "[[a/b]] [[c]] [[d/e/f]] [[g/h]]";
               visibleRanges := [{| from := 0; to := 13 |};
                                 {| from := 14; to := 31 |}] |})).
Proof.
  apply (concealment_ranges_ordered
           {| doc := str "[[a/b]] [[c]] [[d/e/f]] [[g/h]]";
              visibleRanges := [{| from := 0; to := 13 |};
                                {| from := 14; to := 31 |}] |}).
  repeat constructor.
Defined.

(** ** The pattern admits no ']' in the inner text *)

(** C10. A span [[x]] of the document whose interior [x] contains a ']' is
    never a match of the scan, is never the span of a replacement of the
    rewriter, and is never an occurrence of a visible slice from which the
    concealer derives a range; every range of the concealer comes from a
    match of a visible slice. *)
Theorem no_closing_bracket_inside (original : text) (a b : nat) (x : text) :
  slice original a b = wrap x ->
  In RBRACKET x ->
  (forall m, In m (execAll original 0) ->
             ~ (index m = a /\ lastIndexAfter m = b)) /\
  (forall h activePath ops o,
     collectReplacements h activePath original = Normal ops ->
     In o ops -> ~ (start o = a /\ end_ o = b)) /\
  (forall r m,
     In m (execAll (slice original (from r) (to r)) 0) ->
     ~ (from r + index m = a /\ from r + lastIndexAfter m = b)) /\
  (forall rs d,
     In d (snd (buildDecorations true {| doc := original; visibleRanges := rs |})) ->
     exists r m,
       In r rs /\ In m (execAll (slice original (from r) (to r)) 0) /\
       decorationFor (from r) m = Some d /\ ~ In RBRACKET (inner m)).
Proof.
  intros Hspan Hx.
  assert (Hscan : forall r m,
            In m (execAll (slice original (from r) (to r)) 0) ->
            ~ (from r + index m = a /\ from r + lastIndexAfter m = b)).
  { intros r m Hm [Ha Hb].
    destruct (slice_match_in_doc original r m Hm) as ([_ Hv] & _ & _ & Hslice).
    rewrite Ha, Hb, Hspan in Hslice. apply wrap_inj in Hslice.
    subst x. contradiction. }
  assert (Hwhole : forall m, In m (execAll original 0) ->
                             ~ (index m = a /\ lastIndexAfter m = b)).
  { intros m Hm [Ha Hb].
    pose proof (execAll_Scanned_0 original) as Hsc.
    pose proof (Scanned_valid _ _ _ Hsc) as Hv.
    rewrite Forall_forall in Hv. destruct (Hv m Hm) as [[_ Hvalid] Hfull].
    destruct (Scanned_at _ _ _ Hsc m Hm) as (_ & _ & Hslice).
    rewrite Nat.sub_0_r in Hslice. unfold lastIndexAfter in Hb.
    rewrite Hb, Ha, Hspan, Hfull in Hslice. apply wrap_inj in Hslice.
    subst x. contradiction. }
  split; [exact Hwhole|]. split; [|split; [exact Hscan|]].
  - intros h activePath ops o Hc Ho [Ha Hb].
    apply (collectFrom_spec h activePath _ ops Hc) in Ho.
    destruct Ho as (m & Hm & Hr).
    apply replacementFor_Some in Hr. destruct Hr as [_ (p & _ & _ & ->)].
    cbn [start end_] in *. apply (Hwhole m Hm). auto.
  - intros rs d Hd. rewrite buildDecorations_spec in Hd. cbn [doc visibleRanges] in Hd.
    apply in_flat_map in Hd. destruct Hd as (r & Hr & Hd).
    unfold decorationsOf in Hd. apply in_flat_map in Hd.
    destruct Hd as (m & Hm & Hd).
    exists r, m. split; [exact Hr|]. split; [exact Hm|].
    destruct (decorationFor (from r) m) as [d'|]; [|destruct Hd].
    destruct Hd as [<- | []]. split; [reflexivity|].
    destruct (slice_match_in_doc original r m Hm) as ([_ Hv] & _).
    exact Hv.
Qed.

Lemma no_closing_bracket_inside_witness :
  execAll (str "[[a]b/c]] [[d/e]]") 0 = [mkMatch 10 (str "d/e")] /\
  ~ (index (mkMatch 10 (str "d/e")) = 0
     /\ lastIndexAfter (mkMatch 10 (str "d/e")) = 9).
Proof.
  split; [vm_compute; reflexivity|].
  destruct (no_closing_bracket_inside (str "[[a]b/c]] [[d/e]]") 0 9 (str "a]b/c"))
    as [H _].
  - reflexivity.
  - vm_compute. auto.
  - apply H. vm_compute. auto.
Defined.

(** ** The second pass of the rewriter *)

Lemma rebuild_prepend (B s : text) (i : nat) (ops : list Replacement) :
  Forall (fun o => i + length B <= start o /\ i + length B <= end_ o) ops ->
  rebuild i (B ++ s) ops = B ++ rebuild (i + length B) s ops.
Proof.
  intros H. destruct ops as [|o ops]; [reflexivity|].
  inversion H as [|? ? [H1 H2] _]. subst. cbn [rebuild].
  rewrite firstn_app, skipn_app.
  rewrite (@firstn_all2 _ (start o - i) B) by lia.
  rewrite (@skipn_all2 _ (end_ o - i) B) by lia.
  rewrite <- app_assoc. cbn [app].
  replace (start o - i - length B) with (start o - (i + length B)) by lia.
  replace (end_ o - i - length B) with (end_ o - (i + length B)) by lia.
  reflexivity.
Qed.

Lemma replacementFor_None_index (h : Host) (activePath g : text) (i j : nat) :
  replacementFor h activePath (mkMatch i g) = Normal None ->
  replacementFor h activePath (mkMatch j g) = Normal None.
Proof.
  rewrite !replacementFor_None. cbn [mkMatch inner fullMatch]. auto.
Qed.

(** Over a stable link index the rebuilt text splits into the same gaps and
    as many occurrences, and the loop body pushes nothing for any of them. *)
Lemma second_pass (h : Host) (activePath : text) (i : nat) (s : text)
    (ms : list RegExpMatch) :
  stableIndex h activePath ->
  Scanned i s ms ->
  forall ops, collectFrom h activePath ms [] = Normal ops ->
  forall j, exists ms',
    Scanned j (rebuild i s ops) ms' /\
    collectFrom h activePath ms' [] = Normal [].
Proof.
  intros Hstable.
  induction 1 as [i s Hs | i A g r ms Hs Hv Hrest IH]; intros ops Hc j.
  - simpl in Hc. injection Hc as <-. exists []. split; [|reflexivity].
    constructor. cbn [rebuild]. eapply search_None_index. exact Hs.
  - rewrite collectFrom_cons in Hc.
    destruct (replacementFor h activePath (mkMatch (i + length A) g))
      as [o|e] eqn:Hr; [|discriminate].
    destruct (collectFrom h activePath ms []) as [l|e] eqn:Hl; [|discriminate].
    injection Hc as <-.
    pose proof (collect_Ops h activePath _ _ _ Hrest l Hl) as Hops.
    destruct o as [o|]; cbn [optList app].
    + apply replacementFor_Some in Hr.
      destruct Hr as [Hslash (p & Hp & Hne & ->)].
      cbn [mkMatch index fullMatch inner] in *.
      destruct (Hstable g p Hp) as [Hpr Hpstable].
      assert (Hvp : validInner p).
      { split; [|exact Hpr].
        destruct Hpstable as [Hin | [Hnil _]]; [|exact Hnil].
        intros ->. destruct Hin. }
      rewrite rebuild_cons.
      destruct (IH l eq_refl (j + length A + length (wrap p))) as (ms' & Hsc' & Hc').
      exists (mkMatch (j + length A) p :: ms'). split.
      * apply Scanned_more; [|exact Hvp|exact Hsc'].
        eapply search_gap; [exact Hv | exact Hvp | exact Hs].
      * rewrite collectFrom_cons, Hc'.
        assert (Hnone : replacementFor h activePath (mkMatch (j + length A) p)
                        = Normal None).
        { apply replacementFor_None. cbn [mkMatch inner fullMatch].
          destruct Hpstable as [Hin | (_ & [res Hres] & [Hcp|Hcp])].
          - left. apply includes_In. exact Hin.
          - right. left. exists res. auto.
          - right. right. exists p. auto. }
        rewrite Hnone. reflexivity.
    + rewrite (app_assoc A (wrap g) r), rebuild_prepend.
      2:{ eapply Forall_impl; [|eapply Ops_bounds; exact Hops].
          intros o. cbv beta. rewrite length_app. lia. }
      rewrite <- app_assoc, length_app, Nat.add_assoc.
      destruct (IH l eq_refl (j + length A + length (wrap g))) as (ms' & Hsc' & Hc').
      exists (mkMatch (j + length A) g :: ms'). split.
      * apply Scanned_more; [|exact Hv|exact Hsc'].
        eapply search_gap; [exact Hv | exact Hv | exact Hs].
      * rewrite collectFrom_cons, Hc'.
        rewrite (replacementFor_None_index h activePath g _ _ Hr). reflexivity.
Qed.

(** ** Idempotence *)

(** C1, as the code has it. Over a stable link index -- canonical paths
    without ']' that are full paths, or non-empty names that the index does
    not map to another path -- a second run on the new text records no
    replacement: [changed] stays false and the run leaves the editor and the
    console as they are. *)
Theorem rewrite_idempotent_on_stable_index (h : Host) (activePath original : text)
    (ops : list Replacement) :
  stableIndex h activePath ->
  collectReplacements h activePath original = Normal ops ->
  let newText := newContentOf original ops in
  collectReplacements h activePath newText = Normal [] /\
  changedOf newText [] = false /\
  (forall w, getActiveFile h = Some activePath ->
             value (editor w) = newText -> onEditorChange h w = w).
Proof.
  intros Hstable Hc. cbv zeta.
  rewrite (newContentOf_Ops _ _ (collectReplacements_Ops _ _ _ _ Hc)).
  destruct (second_pass h activePath 0 original _ Hstable
              (execAll_Scanned_0 original) ops Hc 0) as (ms' & Hsc & Hc').
  assert (H2 : collectReplacements h activePath (rebuild 0 original ops) = Normal []).
  { unfold collectReplacements.
    rewrite <- (Scanned_execAll _ _ _ Hsc [] eq_refl) in Hc'. exact Hc'. }
  split; [exact H2|]. split; [reflexivity|].
  intros w Hfile Hval. rewrite onEditorChange_run, Hfile, Hval, H2. reflexivity.
Qed.

Lemma rewrite_idempotent_on_stable_index_witness :
  collectReplacements projectHost (str "notes/today.md")
    (str "See [[areas/work/Project]] for details.") = Normal [].
Proof.
  destruct (rewrite_idempotent_on_stable_index projectHost (str "notes/today.md")
              (str "See [[Project]] for details.")
              [{| start := 4; end_ := 15;
                  replacement := str "[[areas/work/Project]]" |}])
    as [H _].
  - intros name p H. unfold canonicalPath in H. cbn in H.
    unfold projectIndex in H.
    destruct (text_eqb name (str "Project")); [|discriminate].
    injection H as <-. split.
    + vm_compute. intros H. repeat (destruct H as [H|H]; [discriminate|]).
      exact H.
    + left. vm_compute. auto 20.
  - reflexivity.
  - exact H.
Defined.

(** Over a link index that maps "a" to the root file b.md and "b" to the
    root file c.md, the first run turns [[a]] into [[b]] and the second run
    records a replacement again. *)
Lemma idempotence_counterexample :
  collectReplacements chainHost (str "notes/today.md") (str "[[a]]")
  = Normal [{| start := 0; end_ := 5; replacement := str "[[b]]" |}] /\
  newContentOf (str "[[a]]")
    [{| start := 0; end_ := 5; replacement := str "[[b]]" |}]
  = str "[[b]]" /\
  collectReplacements chainHost (str "notes/today.md") (str "[[b]]")
  = Normal [{| start := 0; end_ := 5; replacement := str "[[c]]" |}] /\
  changedOf (str "[[b]]")
    [{| start := 0; end_ := 5; replacement := str "[[c]]" |}]
  = true.
Proof. repeat split; vm_compute; reflexivity. Qed.

(** * Further properties *)

(** ** The replacements of a scan *)

Lemma Ops_sorted (i : nat) (s : text) (ops : list Replacement) :
  Ops i s ops -> StronglySorted (fun a b => end_ a <= start b) ops.
Proof.
  induction 1 as [|i s A g p r st en ops Hs Hst Hen Hg Hp Hrest IH];
    constructor; [exact IH|].
  eapply Forall_impl; [|eapply Ops_bounds; exact Hrest].
  intros o. cbn [end_]. lia.
Qed.

(** A recorded replacement lies in the document over a short wikilink and
    is a wikilink with another inner text. *)
Lemma recorded_replacement_shape (h : Host) (activePath original : text)
    (ops : list Replacement) (o : Replacement) :
  collectReplacements h activePath original = Normal ops ->
  In o ops ->
  start o < end_ o /\ end_ o <= length original /\
  exists g p,
    slice original (start o) (end_ o) = wrap g /\
    includes g SLASH = false /\
    replacement o = wrap p /\ p <> g.
Proof.
  intros Hc Ho.
  pose proof (collectReplacements_Ops _ _ _ _ Hc) as Hops.
  pose proof (Ops_bounds _ _ _ Hops) as Hb. rewrite Forall_forall in Hb.
  destruct (Hb o Ho) as (_ & Hlt & Hend).
  split; [exact Hlt|]. split; [exact Hend|].
  apply (collectFrom_spec h activePath _ ops Hc) in Ho.
  destruct Ho as (m & Hm & Hr).
  apply replacementFor_Some in Hr.
  destruct Hr as [Hslash (p & _ & Hne & ->)]. cbn [start end_ replacement].
  pose proof (execAll_Scanned_0 original) as Hsc.
  pose proof (Scanned_valid _ _ _ Hsc) as Hv. rewrite Forall_forall in Hv.
  destruct (Hv m Hm) as [_ Hfull].
  destruct (Scanned_at _ _ _ Hsc m Hm) as (_ & _ & Hslice).
  rewrite Nat.sub_0_r in Hslice.
  exists (inner m), p. rewrite Hslice.
  repeat split; [exact Hfull | exact Hslash |].
  intros ->. congruence.
Qed.

(** X2. The replacements a scan records are in ascending order and do not
    overlap; each lies in the document over a short wikilink and is a
    wikilink with another inner text; so the descending sort of line 275
    reverses the array. *)
Theorem replacements_ascending (h : Host) (activePath original : text)
    (ops : list Replacement) :
  collectReplacements h activePath original = Normal ops ->
  StronglySorted (fun a b => end_ a <= start b) ops /\
  Forall
    (fun o =>
       start o < end_ o /\ end_ o <= length original /\
       exists g p,
         slice original (start o) (end_ o) = wrap g /\
         includes g SLASH = false /\
         replacement o = wrap p /\ p <> g)
    ops /\
  fst (fst (applyReplacements original ops)) = rev ops.
Proof.
  intros Hc.
  pose proof (collectReplacements_Ops _ _ _ _ Hc) as Hops.
  split; [exact (Ops_sorted _ _ _ Hops)|]. split.
  - apply Forall_forall. intros o Ho.
    exact (recorded_replacement_shape h activePath original ops o Hc Ho).
  - rewrite (applyReplacements_Ops _ _ Hops). destruct ops; reflexivity.
Qed.

Lemma replacements_ascending_witness :
  fst (fst (applyReplacements (str "[[Project]] and [[Project]]")
              [{| start := 0; end_ := 11; replacement := str "[[areas/work/Project]]" |};
               {| start := 16; end_ := 27; replacement := str "[[areas/work/Project]]" |}]))
  = [{| start := 16; end_ := 27; replacement := str "[[areas/work/Project]]" |};
     {| start := 0; end_ := 11; replacement := str "[[areas/work/Project]]" |}].
Proof.
  destruct (replacements_ascending projectHost (str "notes/today.md")
              (str "[[Project]] and [[Project]]")
              [{| start := 0; end_ := 11; replacement := str "[[areas/work/Project]]" |};
               {| start := 16; end_ := 27; replacement := str "[[areas/work/Project]]" |}]
              eq_refl) as (_ & _ & H).
  exact H.
Defined.

(** X1. [changed] is true exactly when the new content differs from the
    original: the second test of line 282 never fails after the first. *)
Theorem changed_iff_content_differs (h : Host) (activePath original : text)
    (ops : list Replacement) :
  collectReplacements h activePath original = Normal ops ->
  (changedOf original ops = true <-> newContentOf original ops <> original).
Proof.
  intros Hc.
  pose proof (collectReplacements_Ops _ _ _ _ Hc) as Hops.
  rewrite (newContentOf_Ops _ _ Hops). unfold changedOf.
  rewrite (applyReplacements_Ops _ _ Hops).
  destruct ops as [|o ops]; cbn [snd rebuild].
  - split; [discriminate | congruence].
  - split; [intros _; exact (rebuild_neq _ _ _ _ Hops) | reflexivity].
Qed.

Lemma changed_iff_content_differs_witness :
  changedOf (str "See [[Project]] for details.")
    [{| start := 4; end_ := 15; replacement := str "[[areas/work/Project]]" |}]
  = true <->
  newContentOf (str "See [[Project]] for details.")
    [{| start := 4; end_ := 15; replacement := str "[[areas/work/Project]]" |}]
  <> str "See [[Project]] for details.".
Proof.
  exact (changed_iff_content_differs projectHost (str "notes/today.md")
           (str "See [[Project]] for details.")
           [{| start := 4; end_ := 15;
               replacement := str "[[areas/work/Project]]" |}] eq_refl).
Defined.

Lemma slice_middle (X Y Z : text) :
  slice (X ++ Y ++ Z) (length X) (length X + length Y) = Y.
Proof.
  unfold slice. rewrite skipn_app_exact.
  replace (length X + length Y - length X) with (length Y) by lia.
  apply firstn_app_exact.
Qed.

(** Each replacement is in the rebuilt text where its start is moved to. *)
Lemma Ops_placed (i : nat) (s : text) (ops : list Replacement) :
  Ops i s ops ->
  forall o, In o ops ->
    (0 <= Z.of_nat (start o - i) + shiftBefore ops (start o))%Z /\
    slice (rebuild i s ops)
      (Z.to_nat (Z.of_nat (start o - i) + shiftBefore ops (start o)))
      (Z.to_nat (Z.of_nat (start o - i) + shiftBefore ops (start o))
       + length (replacement o))
    = replacement o.
Proof.
  induction 1 as [|i s A g p r st en ops Hs Hst Hen Hg Hp Hrest IH];
    intros o Ho; [destruct Ho|].
  subst. rewrite rebuild_cons, shiftBefore_cons. cbn [start].
  pose proof (Ops_bounds _ _ _ Hrest) as Hb. rewrite Forall_forall in Hb.
  assert (Hlt : i + length A < i + length A + length (wrap g))
    by (rewrite wrap_length; lia).
  destruct Ho as [<- | Ho]; cbn [start replacement].
  - rewrite Nat.ltb_irrefl, shiftBefore_none.
    2:{ apply Forall_forall. intros x Hx. destruct (Hb x Hx). lia. }
    split; [lia|].
    replace (Z.to_nat (Z.of_nat (i + length A - i) + (0 + 0))) with (length A) by lia.
    apply slice_middle.
  - destruct (Hb o Ho) as (Hst & _ & _).
    destruct (IH o Ho) as [Hpos Hslice].
    assert (E : (i + length A <? start o) = true) by (apply Nat.ltb_lt; lia).
    rewrite E. unfold delta. cbn [start end_ replacement].
    split; [lia|].
    replace (Z.to_nat
               (Z.of_nat (start o - i)
                + (Z.of_nat (length (wrap p))
                   - (Z.of_nat (i + length A + length (wrap g))
                      - Z.of_nat (i + length A))
                   + shiftBefore ops (start o))))
      with (length (A ++ wrap p)
            + Z.to_nat (Z.of_nat (start o - (i + length A + length (wrap g)))
                        + shiftBefore ops (start o)))
      by (rewrite length_app; lia).
    rewrite (app_assoc A (wrap p)), slice_app_r by lia.
    etransitivity; [|exact Hslice]. f_equal; lia.
Qed.

(** X3. After the splicing, every replacement is in the new content at the
    offset to which its start is remapped. *)
Theorem replacement_placed (h : Host) (activePath original : text)
    (ops : list Replacement) (o : Replacement) :
  collectReplacements h activePath original = Normal ops ->
  In o ops ->
  slice (newContentOf original ops)
    (remap ops (start o)) (remap ops (start o) + length (replacement o))
  = replacement o.
Proof.
  intros Hc Ho.
  pose proof (collectReplacements_Ops _ _ _ _ Hc) as Hops.
  rewrite (newContentOf_Ops _ _ Hops).
  destruct (Ops_placed _ _ _ Hops o Ho) as [_ H].
  rewrite Nat.sub_0_r in H. exact H.
Qed.

Lemma replacement_placed_witness :
  slice (str "[[areas/work/Project]] and [[areas/work/Project]]") 27 49
  = str "[[areas/work/Project]]".
Proof.
  exact (replacement_placed projectHost (str "notes/today.md")
           (str "[[Project]] and [[Project]]")
           [{| start := 0; end_ := 11; replacement := str "[[areas/work/Project]]" |};
            {| start := 16; end_ := 27; replacement := str "[[areas/work/Project]]" |}]
           {| start := 16; end_ := 27; replacement := str "[[areas/work/Project]]" |}
           eq_refl (or_intror (or_introl eq_refl))).
Defined.

(** ** More on the cursor *)

Lemma shiftBefore_all (ops : list Replacement) (c : nat) :
  Forall (fun o => start o < c) ops -> shiftBefore ops c = sumZ (map delta ops).
Proof.
  induction 1 as [|o ops Ho Hops IH]; [reflexivity|].
  rewrite shiftBefore_cons, IH. cbn [map sumZ].
  destruct (start o <? c) eqn:E; [reflexivity | apply Nat.ltb_ge in E; lia].
Qed.

Lemma clamp_id (hi x : Z) : (0 <= x <= hi)%Z -> clamp 0 hi x = x.
Proof.
  intros H. unfold clamp.
  destruct (x <? 0)%Z eqn:E1; [lia|].
  destruct (hi <? x)%Z eqn:E2; lia.
Qed.

Lemma clamp_bounds (hi x : Z) : (0 <= hi)%Z -> (0 <= clamp 0 hi x <= hi)%Z.
Proof.
  intros H. unfold clamp.
  destruct (x <? 0)%Z eqn:E1; [lia|].
  destruct (hi <? x)%Z eqn:E2; lia.
Qed.

(** The editor after a run in which no call throws and replacements were
    recorded. *)
Lemma onEditorChange_written (h : Host) (activePath : text) (w : World)
    (o : Replacement) (ops : list Replacement) :
  getActiveFile h = Some activePath ->
  collectReplacements h activePath (value (editor w)) = Normal (o :: ops) ->
  editorNeverThrows h ->
  value (editor (onEditorChange h w)) = rebuild 0 (value (editor w)) (o :: ops) /\
  Z.of_nat (cursor (editor (onEditorChange h w)))
  = clamp 0 (Z.of_nat (length (rebuild 0 (value (editor w)) (o :: ops))))
      (Z.of_nat (cursor (editor w)) + shiftBefore (o :: ops) (cursor (editor w))).
Proof.
  intros Hfile Hc [Hsv Hsc].
  rewrite onEditorChange_run, Hfile, Hc. cbv zeta. rewrite Hsv, Hsc.
  cbn [editor value cursor]. split; [reflexivity|].
  rewrite newOffsetOf_clamp, shiftBefore_rev. reflexivity.
Qed.

(** X4. A cursor at or after the end of every replacement keeps its distance
    to the end of the document; a cursor at the end stays at the end. *)
Theorem cursor_keeps_distance_to_end (h : Host) (activePath : text) (w : World)
    (ops : list Replacement) :
  getActiveFile h = Some activePath ->
  collectReplacements h activePath (value (editor w)) = Normal ops ->
  editorNeverThrows h ->
  cursor (editor w) <= length (value (editor w)) ->
  (forall o, In o ops -> end_ o <= cursor (editor w)) ->
  let w' := onEditorChange h w in
  cursor (editor w') + (length (value (editor w)) - cursor (editor w))
  = length (value (editor w')).
Proof.
  intros Hfile Hc Hnt Hcur Hall. cbv zeta.
  pose proof (collectReplacements_Ops _ _ _ _ Hc) as Hops.
  destruct ops as [|o ops].
  - rewrite onEditorChange_run, Hfile, Hc. lia.
  - destruct (onEditorChange_written h activePath w o ops Hfile Hc Hnt) as [Hv Hcu].
    rewrite Hv.
    pose proof (rebuild_length _ _ _ Hops) as Hlen.
    pose proof (Ops_bounds _ _ _ Hops) as Hb. rewrite Forall_forall in Hb.
    destruct (Ops_frame _ _ _ Hops (cursor (editor w)) (cursor (editor w)))
      as [Hpos _]; [lia | lia | simpl; lia | |].
    { apply Forall_forall. intros x Hx. left. apply Hall. exact Hx. }
    rewrite shiftBefore_all in Hcu, Hpos.
    2,3: apply Forall_forall; intros x Hx; specialize (Hall x Hx);
         destruct (Hb x Hx); lia.
    rewrite clamp_id in Hcu by lia. lia.
Qed.

Lemma cursor_keeps_distance_to_end_witness :
  cursor (editor (onEditorChange projectHost (projectWorld 28))) + (28 - 28)
  = length (value (editor (onEditorChange projectHost (projectWorld 28)))).
Proof.
  apply (cursor_keeps_distance_to_end projectHost (str "notes/today.md")
           (projectWorld 28)
           [{| start := 4; end_ := 15;
               replacement := str "[[areas/work/Project]]" |}]).
  - reflexivity.
  - reflexivity.
  - split; intros; reflexivity.
  - simpl. lia.
  - intros o [<- | []]. simpl. lia.
Defined.

(** X5. A cursor that is not strictly inside a replaced wikilink stays on
    the code unit it was on. *)
Theorem cursor_keeps_character (h : Host) (activePath : text) (w : World)
    (ops : list Replacement) :
  getActiveFile h = Some activePath ->
  collectReplacements h activePath (value (editor w)) = Normal ops ->
  editorNeverThrows h ->
  cursor (editor w) < length (value (editor w)) ->
  (forall o, In o ops ->
             cursor (editor w) <= start o \/ end_ o <= cursor (editor w)) ->
  let w' := onEditorChange h w in
  nth_error (value (editor w')) (cursor (editor w'))
  = nth_error (value (editor w)) (cursor (editor w)).
Proof.
  intros Hfile Hc Hnt Hcur Hall. cbv zeta.
  pose proof (collectReplacements_Ops _ _ _ _ Hc) as Hops.
  destruct ops as [|o0 ops0].
  { rewrite onEditorChange_run, Hfile, Hc. reflexivity. }
  destruct (onEditorChange_written h activePath w o0 ops0 Hfile Hc Hnt) as [Hv Hcu].
  rewrite Hv.
  set (c := cursor (editor w)) in *. set (T := value (editor w)) in *.
  set (ops := o0 :: ops0) in *.
  assert (Hkey : (0 <= Z.of_nat c + shiftBefore ops c)%Z /\
                 nth_error (rebuild 0 T ops) (Z.to_nat (Z.of_nat c + shiftBefore ops c))
                 = nth_error T c).
  { destruct (Exists_dec (fun o => start o = c) ops
                (fun o => Nat.eq_dec (start o) c)) as [Hex | Hnex].
    - apply Exists_exists in Hex. destruct Hex as (o & Ho & Hst).
      destruct (recorded_replacement_shape h activePath T ops o Hc Ho)
        as (Hlt & _ & g & p & Hsl & _ & Hrep & _).
      destruct (Ops_placed _ _ _ Hops o Ho) as [Hpos Hplaced].
      rewrite Nat.sub_0_r, Hst in *. split; [exact Hpos|].
      assert (H1 : nth_error T c = Some LBRACKET).
      { replace c with (c + 0) at 1 by lia.
        rewrite <- (nth_error_slice T c (end_ o) 0) by lia.
        rewrite Hsl. reflexivity. }
      rewrite H1.
      replace (Z.to_nat (Z.of_nat c + shiftBefore ops c))
        with (Z.to_nat (Z.of_nat c + shiftBefore ops c) + 0) at 1 by lia.
      rewrite <- (nth_error_slice _ _
                    (Z.to_nat (Z.of_nat c + shiftBefore ops c)
                     + length (replacement o)) 0)
        by (rewrite Hrep, wrap_length; lia).
      rewrite Hplaced, Hrep. reflexivity.
    - destruct (Ops_frame _ _ _ Hops c (S c)) as [Hpos Hframe];
        [lia | lia | simpl; lia | |].
      { apply Forall_forall. intros x Hx.
        destruct (Hall x Hx) as [H|H]; [right | left; exact H].
        assert (start x <> c).
        { intros E. apply Hnex. apply Exists_exists. exists x. auto. }
        lia. }
      rewrite Nat.sub_0_r in *. split; [exact Hpos|].
      replace (Z.to_nat (Z.of_nat c + shiftBefore ops c))
        with (Z.to_nat (Z.of_nat c + shiftBefore ops c) + 0) at 1 by lia.
      rewrite <- (nth_error_slice _ _
                    (Z.to_nat (Z.of_nat c + shiftBefore ops c) + (S c - c)) 0)
        by lia.
      rewrite Hframe.
      rewrite nth_error_slice by lia. f_equal. lia. }
  destruct Hkey as [Hpos Hnth].
  assert (Hin : Z.to_nat (Z.of_nat c + shiftBefore ops c) < length (rebuild 0 T ops)).
  { apply nth_error_Some. rewrite Hnth. apply nth_error_Some. exact Hcur. }
  rewrite clamp_id in Hcu by lia.
  replace (cursor (editor (onEditorChange h w)))
    with (Z.to_nat (Z.of_nat c + shiftBefore ops c)) by lia.
  exact Hnth.
Qed.

Lemma cursor_keeps_character_witness :
  nth_error (value (editor (onEditorChange projectHost (projectWorld 20))))
    (cursor (editor (onEditorChange projectHost (projectWorld 20))))
  = nth_error (str "See [[Project]] for details.") 20.
Proof.
  apply (cursor_keeps_character projectHost (str "notes/today.md")
           (projectWorld 20)
           [{| start := 4; end_ := 15;
               replacement := str "[[areas/work/Project]]" |}]).
  - reflexivity.
  - reflexivity.
  - split; intros; reflexivity.
  - simpl. lia.
  - intros o [<- | []]. simpl. lia.
Defined.

Lemma app_singleton_neq {A : Type} (l : list A) (x : A) : l ++ [x] <> l.
Proof.
  intros H. apply (f_equal (@Datatypes.length A)) in H.
  rewrite length_app in H. simpl in H. lia.
Qed.

(** X6. A run that logs no error leaves the cursor inside the document. *)
Theorem cursor_within_document (h : Host) (w : World) :
  cursor (editor w) <= length (value (editor w)) ->
  console (onEditorChange h w) = console w ->
  cursor (editor (onEditorChange h w))
  <= length (value (editor (onEditorChange h w))).
Proof.
  intros Hcur. rewrite onEditorChange_run.
  destruct (getActiveFile h) as [activePath|]; [|auto].
  destruct (collectReplacements h activePath (value (editor w))) as [ops|e];
    [|auto].
  destruct ops as [|o ops]; [auto|]. cbv zeta.
  destruct (setValueFault h _); [auto|].
  destruct (setCursorFault h (newOffsetOf _ _ _)).
  - destruct (setCursorFault h (length _)).
    + unfold logged. cbn [console editor]. intros H.
      exfalso. exact (app_singleton_neq _ _ H).
    + cbn [editor value cursor]. lia.
  - cbn [editor value cursor]. intros _.
    apply Nat2Z.inj_le. rewrite newOffsetOf_clamp.
    apply clamp_bounds. lia.
Qed.

Lemma cursor_within_document_witness :
  cursor (editor (onEditorChange projectHost (projectWorld 20)))
  <= length (value (editor (onEditorChange projectHost (projectWorld 20)))).
Proof.
  apply (cursor_within_document projectHost (projectWorld 20)).
  - simpl. lia.
  - reflexivity.
Defined.

(** ** The occurrences of the new content *)

(** When the canonical paths are valid inner texts, the rebuilt text splits
    into the same gaps, and its occurrences are those of the original with
    the resolved short names exchanged for their canonical paths. *)
Lemma rescan (h : Host) (activePath : text) (i : nat) (s : text)
    (ms : list RegExpMatch) :
  (forall name p, canonicalPath h activePath name = Some p -> validInner p) ->
  Scanned i s ms ->
  forall ops, collectFrom h activePath ms [] = Normal ops ->
  forall j, exists ms',
    Scanned j (rebuild i s ops) ms' /\
    map inner ms' = map (newInner h activePath) ms.
Proof.
  intros Hvalid.
  induction 1 as [i s Hs | i A g r ms Hs Hv Hrest IH]; intros ops Hc j.
  - simpl in Hc. injection Hc as <-. exists []. split; [|reflexivity].
    constructor. cbn [rebuild]. eapply search_None_index. exact Hs.
  - rewrite collectFrom_cons in Hc.
    destruct (replacementFor h activePath (mkMatch (i + length A) g))
      as [o|e] eqn:Hr; [|discriminate].
    destruct (collectFrom h activePath ms []) as [l|e] eqn:Hl; [|discriminate].
    injection Hc as <-.
    pose proof (collect_Ops h activePath _ _ _ Hrest l Hl) as Hops.
    destruct o as [o|]; cbn [optList app].
    + apply replacementFor_Some in Hr.
      destruct Hr as [Hslash (p & Hp & Hne & ->)].
      cbn [mkMatch index fullMatch inner] in *.
      pose proof (Hvalid g p Hp) as Hvp.
      rewrite rebuild_cons.
      destruct (IH l eq_refl (j + length A + length (wrap p))) as (ms' & Hsc' & Hmap).
      exists (mkMatch (j + length A) p :: ms'). split.
      * apply Scanned_more; [|exact Hvp|exact Hsc'].
        eapply search_gap; [exact Hv | exact Hvp | exact Hs].
      * cbn [map mkMatch inner]. rewrite Hmap. f_equal.
        unfold newInner, mkMatch. cbn [inner]. rewrite Hslash, Hp. reflexivity.
    + rewrite (app_assoc A (wrap g) r), rebuild_prepend.
      2:{ eapply Forall_impl; [|eapply Ops_bounds; exact Hops].
          intros o. cbv beta. rewrite length_app. lia. }
      rewrite <- app_assoc, length_app, Nat.add_assoc.
      destruct (IH l eq_refl (j + length A + length (wrap g))) as (ms' & Hsc' & Hmap).
      exists (mkMatch (j + length A) g :: ms'). split.
      * apply Scanned_more; [|exact Hv|exact Hsc'].
        eapply search_gap; [exact Hv | exact Hv | exact Hs].
      * cbn [map mkMatch inner]. rewrite Hmap. f_equal.
        unfold newInner, mkMatch. cbn [inner].
        apply replacementFor_None in Hr. cbn [mkMatch inner fullMatch] in Hr.
        destruct Hr as [Hi | [(res & _ & Hnone) | (p & Hp & Heq)]].
        -- rewrite Hi. reflexivity.
        -- rewrite Hnone. destruct (includes g SLASH); reflexivity.
        -- rewrite Hp. apply wrap_inj in Heq. subst p.
           destruct (includes g SLASH); reflexivity.
Qed.

(** X7. When every canonical path is non-empty and free of ']', the new
    content has the occurrences of the original, one for one and in order:
    a short name that resolves now reads as its canonical path, every other
    inner text is as it was, and no occurrence is created or lost. *)
Theorem occurrences_correspond (h : Host) (activePath original : text)
    (ops : list Replacement) :
  (forall name p, canonicalPath h activePath name = Some p -> validInner p) ->
  collectReplacements h activePath original = Normal ops ->
  map inner (execAll (newContentOf original ops) 0)
  = map (newInner h activePath) (execAll original 0).
Proof.
  intros Hvalid Hc.
  rewrite (newContentOf_Ops _ _ (collectReplacements_Ops _ _ _ _ Hc)).
  destruct (rescan h activePath 0 original _ Hvalid
              (execAll_Scanned_0 original) ops Hc 0) as (ms' & Hsc & Hmap).
  rewrite <- (Scanned_execAll _ _ _ Hsc [] eq_refl) in Hmap. exact Hmap.
Qed.

Lemma occurrences_correspond_witness :
  map inner (execAll (str "[[areas/work/Project]] and [[Missing]] or [[a/b]]") 0)
  = map (newInner projectHost (str "notes/today.md"))
      (execAll (str "[[Project]] and [[Missing]] or [[a/b]]") 0).
Proof.
  apply (occurrences_correspond projectHost (str "notes/today.md")
           (str "[[Project]] and [[Missing]] or [[a/b]]")
           [{| start := 0; end_ := 11;
               replacement := str "[[areas/work/Project]]" |}]).
  - intros name p H. unfold canonicalPath in H. cbn in H.
    unfold projectIndex in H.
    destruct (text_eqb name (str "Project")); [|discriminate].
    injection H as <-. split; [discriminate|].
    vm_compute. intros H. repeat (destruct H as [H|H]; [discriminate|]).
    exact H.
  - reflexivity.
Defined.

(** ** The reading view and the editor *)

(** The text splits at the last occurrence of a code unit. *)
Lemma lastIndexOf_split (s : text) (c : char) (k : nat) :
  lastIndexOf s c = Some k ->
  s = firstn k s ++ c :: skipn (S k) s /\ ~ In c (skipn (S k) s).
Proof.
  revert k. induction s as [|x s IH]; intros k; simpl; [discriminate|].
  destruct (lastIndexOf s c) as [i|] eqn:E.
  - intros H. injection H as <-. destruct (IH i eq_refl) as [H1 H2].
    simpl. split; [f_equal; exact H1 | exact H2].
  - destruct (char_eqb x c) eqn:Ex; [|discriminate].
    intros H. injection H as <-. char_facts. subst x. simpl.
    split; [reflexivity|]. apply lastIndexOf_None. exact E.
Qed.

Example reading_view_example :
  markdownPostProcessor true
    [{| href := Some (str "areas/work/Project"); innerText := str "areas/work/Project" |};
     {| href := Some (str "Inbox"); innerText := str "Inbox" |};
     {| href := None; innerText := str "broken" |}]
  = [{| href := Some (str "areas/work/Project"); innerText := str "Project" |};
     {| href := Some (str "Inbox"); innerText := str "Inbox" |};
     {| href := None; innerText := str "broken" |}].
Proof. vm_compute. reflexivity. Qed.

(** X8. The post-processor leaves the targets of the links alone. With the
    setting on, a link whose target has a '/' gets as label the part of the
    target after its last '/', which has no '/'; every other label, and
    every label with the setting off, stays as it is. *)
Theorem reading_view_labels (displayAsShortName : bool)
    (links : list InternalLink) :
  map href (markdownPostProcessor displayAsShortName links) = map href links /\
  Forall2
    (fun l l' =>
       match href l with
       | Some h =>
           if displayAsShortName && includes h SLASH
           then (exists folder, h = folder ++ SLASH :: innerText l')
                /\ ~ In SLASH (innerText l')
           else innerText l' = innerText l
       | None => innerText l' = innerText l
       end)
    links (markdownPostProcessor displayAsShortName links).
Proof.
  unfold markdownPostProcessor. destruct displayAsShortName; cbn [negb andb].
  - induction links as [|l links [IH1 IH2]]; [split; constructor|].
    cbn [map]. split.
    + f_equal; [|exact IH1]. unfold shortenLink.
      destruct (href l) as [[|c h]|] eqn:Hh; [exact Hh | | exact Hh].
      destruct (includes (c :: h) SLASH); [reflexivity | exact Hh].
    + constructor; [|exact IH2]. unfold shortenLink.
      destruct (href l) as [[|c h]|] eqn:Hh;
        [simpl; reflexivity | | simpl; reflexivity].
      destruct (includes (c :: h) SLASH) eqn:Hi; rewrite ?Hh; [|reflexivity].
      cbn [innerText].
      destruct (lastIndexOf (c :: h) SLASH) as [k|] eqn:Hk.
      * destruct (lastIndexOf_split _ _ _ Hk) as [H1 H2].
        unfold substring. rewrite Nat.add_1_r. split; [|exact H2].
        exists (firstn k (c :: h)). exact H1.
      * apply lastIndexOf_None in Hk. apply includes_In in Hi. contradiction.
  - split; [reflexivity|].
    induction links as [|l links IH]; constructor; [|exact IH].
    destruct (href l); reflexivity.
Qed.

Lemma slice_length_doc (s : text) (a b : nat) : length (slice s a b) <= length s - a.
Proof. unfold slice. rewrite length_firstn, length_skipn. lia. Qed.

Lemma slice_wrap (g : text) (x y : nat) :
  y <= length g -> slice (wrap g) (2 + x) (2 + y) = slice g x y.
Proof.
  intros Hy. unfold wrap, slice. cbn [skipn Nat.add].
  rewrite skipn_app, firstn_app, length_skipn.
  replace (S (S y) - S (S x) - (length g - x)) with 0 by lia.
  rewrite firstn_0, app_nil_r. reflexivity.
Qed.

(** The inner text of a match of a visible slice, read off the document. *)
Lemma inner_in_doc (t : text) (r : VisibleRange) (m : RegExpMatch) (x y : nat) :
  In m (execAll (slice t (from r) (to r)) 0) ->
  y <= length (inner m) ->
  slice t (from r + index m + 2 + x) (from r + index m + 2 + y)
  = slice (inner m) x y.
Proof.
  intros Hm Hy.
  destruct (slice_match_in_doc t r m Hm) as (_ & Hfull & _ & Hslice).
  rewrite <- (slice_wrap (inner m) x y Hy), <- Hslice.
  rewrite slice_slice.
  - f_equal; lia.
  - rewrite Hslice, wrap_length. lia.
Qed.

(** X9. In the editor the range hidden for a full-path wikilink holds the
    folders of the path up to its last '/', and what is left visible of the
    inner text is the name after it: the label the reading-view
    post-processor gives a link with that path as target. *)
Theorem editor_shows_reading_view_label (v : EditorView) (r : VisibleRange)
    (m : RegExpMatch) (d : HiddenRange) :
  In r (visibleRanges v) ->
  In m (execAll (slice (doc v) (from r) (to r)) 0) ->
  decorationFor (from r) m = Some d ->
  let closeAt := from r + index m + 2 + length (inner m) in
  let hidden := slice (doc v) (rFrom d) (rTo d) in
  let shown := slice (doc v) (rTo d) closeAt in
  inner m = hidden ++ shown /\
  (exists folders, hidden = folders ++ [SLASH]) /\
  ~ In SLASH shown /\
  shown = innerText (shortenLink {| href := Some (inner m); innerText := inner m |}).
Proof.
  intros Hr Hm Hd. cbv zeta.
  unfold decorationFor in Hd.
  destruct (includes (inner m) SLASH) eqn:Hi; [|discriminate]. cbn [negb] in Hd.
  destruct (lastIndexOf (inner m) SLASH) as [k|] eqn:Hk.
  2:{ apply lastIndexOf_None in Hk. apply includes_In in Hi. contradiction. }
  injection Hd as <-. cbn [rFrom rTo].
  destruct (lastIndexOf_Some _ _ _ Hk) as (_ & Hlt & _).
  destruct (lastIndexOf_split _ _ _ Hk) as [Hsplit Hno].
  assert (Hhidden : slice (doc v) (from r + index m + 2) (from r + index m + 2 + k + 1)
                    = firstn (S k) (inner m)).
  { replace (from r + index m + 2) with (from r + index m + 2 + 0) at 1 by lia.
    replace (from r + index m + 2 + k + 1) with (from r + index m + 2 + S k) by lia.
    rewrite (inner_in_doc (doc v) r m 0 (S k) Hm) by lia.
    unfold slice. rewrite Nat.sub_0_r. reflexivity. }
  assert (Hshown : slice (doc v) (from r + index m + 2 + k + 1)
                     (from r + index m + 2 + length (inner m))
                   = skipn (S k) (inner m)).
  { replace (from r + index m + 2 + k + 1) with (from r + index m + 2 + S k) by lia.
    rewrite (inner_in_doc (doc v) r m (S k) (length (inner m)) Hm) by lia.
    unfold slice. rewrite <- length_skipn. apply firstn_all. }
  rewrite Hhidden, Hshown. repeat split.
  - symmetry. apply firstn_skipn.
  - exists (firstn k (inner m)).
    rewrite Hsplit at 1.
    rewrite firstn_app, firstn_firstn, length_firstn.
    replace (Nat.min (S k) k) with k by lia.
    replace (S k - Nat.min k (length (inner m))) with 1 by lia.
    reflexivity.
  - exact Hno.
  - unfold shortenLink. cbn [href].
    destruct (inner m) as [|c g] eqn:Hg; [simpl in Hlt; lia|].
    rewrite Hi, Hk. cbn [innerText]. unfold substring.
    rewrite Nat.add_1_r. reflexivity.
Qed.

Lemma editor_shows_reading_view_label_witness :
  str "areas/work/Project"
  = slice (str "Link: [[areas/work/Project]]") 8 19
    ++ slice (str "Link: [[areas/work/Project]]") 19 26.
Proof.
  destruct (editor_shows_reading_view_label
              {| doc := str "Link: [[areas/work/Project]]";
                 visibleRanges := [{| from := 0; to := 28 |}] |}
              {| from := 0; to := 28 |}
              (mkMatch 6 (str "areas/work/Project"))
              {| rFrom := 8; rTo := 19 |}) as [H _].
  - left. reflexivity.
  - vm_compute. auto.
  - reflexivity.
  - exact H.
Defined.

(** X10. Every range the concealer emits is non-empty and lies inside one of
    the visible ranges and inside the document. *)
Theorem decorations_inside_visible_ranges (v : EditorView) (d : HiddenRange) :
  In d (snd (buildDecorations true v)) ->
  exists r,
    In r (visibleRanges v) /\
    from r <= rFrom d /\ rFrom d < rTo d /\ rTo d <= to r /\
    rTo d <= length (doc v).
Proof.
  intros Hd. rewrite buildDecorations_spec in Hd.
  apply in_flat_map in Hd. destruct Hd as (r & Hr & Hd).
  unfold decorationsOf in Hd. apply in_flat_map in Hd.
  destruct Hd as (m & Hm & Hd).
  exists r. split; [exact Hr|].
  destruct (slice_match_in_doc (doc v) r m Hm) as (_ & Hfull & Hend & _).
  unfold lastIndexAfter in Hend. rewrite Hfull, wrap_length in Hend.
  pose proof (slice_length (doc v) (from r) (to r)) as Hl1.
  pose proof (slice_length_doc (doc v) (from r) (to r)) as Hl2.
  unfold decorationFor in Hd.
  destruct (includes (inner m) SLASH) eqn:Hi; [|destruct Hd]. cbn [negb optList] in Hd.
  destruct (lastIndexOf (inner m) SLASH) as [k|] eqn:Hk.
  2:{ apply lastIndexOf_None in Hk. apply includes_In in Hi. contradiction. }
  destruct (lastIndexOf_Some _ _ _ Hk) as (_ & Hlt & _).
  destruct Hd as [<- | []]. cbn [rFrom rTo]. lia.
Qed.

Lemma decorations_inside_visible_ranges_witness :
  exists r,
    In r [{| from := 0; to := 28 |}] /\
    from r <= 8 /\ 8 < 19 /\ 19 <= to r /\ 19 <= 28.
Proof.
  apply (decorations_inside_visible_ranges
           {| doc := str "Link: [[areas/work/Project]]";
              visibleRanges := [{| from := 0; to := 28 |}] |}
           {| rFrom := 8; rTo := 19 |}).
  vm_compute. auto.
Defined.

(** X11. The decorations of the plugin are never stale: if they are those of
    [buildDecorations] for the setting and the view they were built with,
    then after an [update] they are those for the current setting and the
    view of the update, provided an update that reports neither a document
    nor a viewport change comes with that same view. *)
Theorem plugin_decorations_current (s0 s : bool) (v0 : EditorView)
    (this : PluginValue) (u : ViewUpdate) :
  builtFor s0 v0 this ->
  (docChanged u = false -> viewportChanged u = false -> view u = v0) ->
  builtFor s (view u) (update s this u).
Proof.
  intros [Hdec Hlast] Hsame. unfold update, builtFor.
  destruct (docChanged u) eqn:Hdoc; cbn [orb].
  - destruct (buildDecorations s (view u)) as [ls ds] eqn:Hb. cbn [decorations _lastSetting snd].
    split; [reflexivity|].
    unfold buildDecorations in Hb. destruct s; injection Hb as <- _; reflexivity.
  - destruct (viewportChanged u) eqn:Hvp; cbn [orb].
    + destruct (buildDecorations s (view u)) as [ls ds] eqn:Hb.
      cbn [decorations _lastSetting snd]. split; [reflexivity|].
      unfold buildDecorations in Hb. destruct s; injection Hb as <- _; reflexivity.
    + rewrite Hlast. destruct (Bool.eqb s s0) eqn:E; cbn [negb].
      * apply Bool.eqb_prop in E.
        rewrite (Hsame eq_refl eq_refl). split; congruence.
      * destruct (buildDecorations s (view u)) as [ls ds] eqn:Hb.
        cbn [decorations _lastSetting snd]. split; [reflexivity|].
        unfold buildDecorations in Hb. destruct s; injection Hb as <- _; reflexivity.
Qed.

Lemma plugin_decorations_current_witness :
  builtFor false
    {| doc := str "Link: [[areas/work/Project]]";
       visibleRanges := [{| from := 0; to := 28 |}] |}
    (update false
       (construct true
          {| doc := str "Link: [[areas/work/Project]]";
             visibleRanges := [{| from := 0; to := 28 |}] |})
       {| docChanged := false; viewportChanged := false;
          view := {| doc := str "Link: [[areas/work/Project]]";
                     visibleRanges := [{| from := 0; to := 28 |}] |} |}).
Proof.
  apply (plugin_decorations_current true false
           {| doc := str "Link: [[areas/work/Project]]";
              visibleRanges := [{| from := 0; to := 28 |}] |}
           (construct true
              {| doc := str "Link: [[areas/work/Project]]";
                 visibleRanges := [{| from := 0; to := 28 |}] |})
           {| docChanged := false; viewportChanged := false;
              view := {| doc := str "Link: [[areas/work/Project]]";
                         visibleRanges := [{| from := 0; to := 28 |}] |} |}).
  - split; reflexivity.
  - intros _ _. reflexivity.
Defined.

(** ** [debounce] *)

Example debounce_example :
  target (debounceRun record
            [Call 1; Call 2; Fire 7; Fire 8; Call 3; Fire 8; Fire 9]
            (debounce 7 []))
  = [2; 3].
Proof. vm_compute. reflexivity. Qed.

Lemma debounceRun_snoc {Args S} (fn : Args -> S -> S)
    (evs : list (TimerEvent Args)) (ev : TimerEvent Args) (d : Debounced Args S) :
  debounceRun fn (evs ++ [ev]) d = debounceStep fn (debounceRun fn evs d) ev.
Proof. unfold debounceRun. rewrite fold_left_app. reflexivity. Qed.

Lemma lastCall_snoc {Args} (evs : list (TimerEvent Args)) (ev : TimerEvent Args) :
  lastCall (evs ++ [ev]) =
  match ev with
  | Call a => Some a
  | Fire _ => lastCall evs
  end.
Proof.
  induction evs as [|e evs IH]; simpl.
  - destruct ev; reflexivity.
  - rewrite IH. destruct ev; [reflexivity|].
    destruct (lastCall evs); reflexivity.
Qed.

Lemma callsOf_snoc {Args} (evs : list (TimerEvent Args)) (ev : TimerEvent Args) :
  callsOf (evs ++ [ev]) =
  callsOf evs ++ match ev with Call a => [a] | Fire _ => [] end.
Proof.
  induction evs as [|e evs IH]; simpl.
  - destruct ev; reflexivity.
  - rewrite IH. destruct e; reflexivity.
Qed.

(** A call leaves exactly its own timer pending. *)
Lemma debouncedCall_Coalesced {Args S} (args : Args) (d : Debounced Args S) :
  Coalesced d ->
  timers (timerHost (debouncedCall args d))
  = [(nextTimer (timerHost d), args)] /\
  t (debouncedCall args d) = Some (nextTimer (timerHost d)) /\
  target (debouncedCall args d) = target d.
Proof.
  intros H. unfold debouncedCall, setTimeout, clearTimeout.
  destruct H as [H | (id & a & H & Ht)].
  - destruct (t d); cbn; rewrite H; auto.
  - rewrite Ht. cbn. rewrite H. cbn. rewrite Nat.eqb_refl. cbn. auto.
Qed.

(** Firing the pending timer runs [fn] once and leaves no timer; firing
    anything else changes nothing. *)
Lemma fireTimer_Coalesced {Args S} (fn : Args -> S -> S) (id : nat)
    (d : Debounced Args S) :
  Coalesced d ->
  (fireTimer fn id d = d /\ findTimer id (timers (timerHost d)) = None) \/
  (exists args,
     timers (timerHost d) = [(id, args)] /\
     timers (timerHost (fireTimer fn id d)) = [] /\
     t (fireTimer fn id d) = t d /\
     target (fireTimer fn id d) = fn args (target d)).
Proof.
  intros H. unfold fireTimer.
  destruct H as [H | (id' & a & H & Ht)]; rewrite H; cbn.
  - left. auto.
  - destruct (id' =? id) eqn:E.
    + apply Nat.eqb_eq in E. subst id'. right. exists a. cbn.
      rewrite ?Nat.eqb_refl. cbn. auto.
    + left. auto.
Qed.

Lemma debounceStep_Coalesced {Args S} (fn : Args -> S -> S)
    (d : Debounced Args S) (ev : TimerEvent Args) :
  Coalesced d -> Coalesced (debounceStep fn d ev).
Proof.
  intros H. destruct ev as [a | id]; cbn [debounceStep].
  - destruct (debouncedCall_Coalesced a d H) as (H1 & H2 & _).
    right. eauto.
  - destruct (fireTimer_Coalesced fn id d H) as [[-> _] | (a & _ & H1 & _)];
      [exact H | left; exact H1].
Qed.

(** X12. Whatever the calls and the timers the host fires, at most one timer
    of the debounced function is pending; it is the timer [t] and holds the
    arguments of the latest call. *)
Theorem debounce_one_pending_timer {Args S} (fn : Args -> S -> S)
    (evs : list (TimerEvent Args)) (nextId : nat) (s : S) :
  let d := debounceRun fn evs (debounce nextId s) in
  timers (timerHost d) = [] \/
  exists id args,
    timers (timerHost d) = [(id, args)] /\ t d = Some id /\
    lastCall evs = Some args.
Proof.
  cbv zeta. induction evs as [|ev evs IH] using rev_ind.
  - left. reflexivity.
  - rewrite debounceRun_snoc, lastCall_snoc.
    assert (Hco : Coalesced (debounceRun fn evs (debounce nextId s))).
    { destruct IH as [H | (id & a & H & Ht & _)]; [left; exact H | right; eauto]. }
    destruct ev as [a | id]; cbn [debounceStep].
    + destruct (debouncedCall_Coalesced a _ Hco) as (H1 & H2 & _).
      right. eauto.
    + destruct (fireTimer_Coalesced fn id _ Hco) as [[-> _] | (a & _ & H1 & _)];
        [exact IH | left; exact H1].
Qed.

Lemma Subsequence_refl {A} (l : list A) : Subsequence l l.
Proof. induction l; constructor; assumption. Qed.

Lemma Subsequence_snoc {A} (l1 l2 : list A) (x : A) :
  Subsequence l1 l2 -> Subsequence (l1 ++ [x]) (l2 ++ [x]).
Proof.
  induction 1; simpl; try (constructor; assumption).
  apply Subsequence_refl.
Qed.

Lemma Subsequence_skip_last {A} (l1 l2 : list A) (x : A) :
  Subsequence l1 l2 -> Subsequence l1 (l2 ++ [x]).
Proof.
  induction 1; simpl; try (constructor; assumption).
  apply Subsequence_skip. constructor.
Qed.

Lemma Subsequence_drop_last {A} (l1 l2 : list A) (x : A) :
  Subsequence (l1 ++ [x]) l2 -> Subsequence l1 l2.
Proof.
  remember (l1 ++ [x]) as l eqn:Hl. intros H. revert l1 Hl.
  induction H as [| y l l2 H IH | y l l2 H IH]; intros l1 Hl.
  - destruct l1; discriminate.
  - constructor. apply IH. exact Hl.
  - destruct l1 as [|z l1]; simpl in Hl.
    + injection Hl as -> ->. constructor.
      clear IH. induction l2; [constructor|].
      inversion H; subst. constructor. apply IHl2. assumption.
    + injection Hl as -> ->. apply Subsequence_take. apply IH. reflexivity.
Qed.

Lemma Subsequence_length {A} (l1 l2 : list A) :
  Subsequence l1 l2 -> length l1 <= length l2.
Proof. induction 1; simpl; lia. Qed.

(** The invocations recorded so far, followed by the pending one, are calls
    in their order. *)
Lemma debounce_record_invariant {Args} (evs : list (TimerEvent Args)) (nextId : nat) :
  let d := debounceRun record evs (debounce nextId []) in
  Coalesced d /\
  Subsequence (target d ++ map snd (timers (timerHost d))) (callsOf evs).
Proof.
  cbv zeta. induction evs as [|ev evs [Hco IH]] using rev_ind.
  - split; [left; reflexivity | constructor].
  - rewrite debounceRun_snoc, callsOf_snoc.
    split; [apply debounceStep_Coalesced; exact Hco|].
    destruct ev as [a | id]; cbn [debounceStep].
    + destruct (debouncedCall_Coalesced a _ Hco) as (H1 & _ & H3).
      rewrite H1, H3. cbn [map snd]. apply Subsequence_snoc.
      destruct Hco as [H | (id & a' & H & _)]; rewrite H in IH; cbn [map snd] in IH.
      * rewrite app_nil_r in IH. exact IH.
      * eapply Subsequence_drop_last. exact IH.
    + rewrite app_nil_r.
      destruct (fireTimer_Coalesced record id _ Hco)
        as [[-> _] | (a & H0 & H1 & _ & H3)]; [exact IH|].
      rewrite H1, H3. rewrite H0 in IH. cbn [map snd] in *.
      rewrite app_nil_r. exact IH.
Qed.

(** The run with [fn] goes as the run that records, and its state is that
    of [fn] applied to the recorded arguments in order. *)
Lemma debounce_as_recorded {Args S} (fn : Args -> S -> S)
    (evs : list (TimerEvent Args)) (nextId : nat) (s : S) :
  let d := debounceRun fn evs (debounce nextId s) in
  let d' := debounceRun record evs (debounce nextId []) in
  t d = t d' /\ timerHost d = timerHost d' /\
  target d = fold_left (fun st a => fn a st) (target d') s.
Proof.
  cbv zeta. induction evs as [|ev evs (Ht & Hh & Htg)] using rev_ind.
  - repeat split.
  - rewrite !debounceRun_snoc.
    destruct ev as [a | id]; cbn [debounceStep].
    + unfold debouncedCall. rewrite Ht, Hh.
      destruct (setTimeout a _) as [id th]. cbn [t timerHost target]. auto.
    + unfold fireTimer. rewrite Hh.
      destruct (findTimer id _) as [a|]; cbn [t timerHost target]; [|auto].
      rewrite Ht, Htg. unfold record. rewrite fold_left_app. auto.
Qed.

(** X13. The function is invoked only with arguments of calls, in the order
    of the calls and at most once for each call; the state after the run is
    that of these invocations. *)
Theorem debounce_invocations {Args S} (fn : Args -> S -> S)
    (evs : list (TimerEvent Args)) (nextId : nat) (s : S) :
  exists invoked,
    Subsequence invoked (callsOf evs) /\
    length invoked <= length (callsOf evs) /\
    target (debounceRun fn evs (debounce nextId s))
    = fold_left (fun st a => fn a st) invoked s.
Proof.
  exists (target (debounceRun record evs (debounce nextId []))).
  destruct (debounce_record_invariant evs nextId) as [Hco Hsub].
  destruct (debounce_as_recorded fn evs nextId s) as (_ & _ & Htg).
  assert (H : Subsequence (target (debounceRun record evs (debounce nextId [])))
                (callsOf evs)).
  { destruct Hco as [H | (id & a & H & _)]; rewrite H in Hsub; cbn [map snd] in Hsub.
    - rewrite app_nil_r in Hsub. exact Hsub.
    - eapply Subsequence_drop_last. exact Hsub. }
  split; [exact H|]. split; [apply Subsequence_length; exact H | exact Htg].
Qed.

(** X14. A burst of editor-change events, with no timer fired in between,
    leaves one timer pending; when the host fires it, [handleEditorChange]
    runs once, on the editor of the last event, and the other editors are
    left as they are. *)
Theorem burst_rewrites_last_editor (h : Host) (d : Debounced nat Workspace)
    (es : list nat) (e : nat) :
  Coalesced d ->
  let d1 := fold_left (pluginStep h) (map Call (es ++ [e])) d in
  let id := nextTimer (timerHost d) + length es in
  timers (timerHost d1) = [(id, e)] /\
  target d1 = target d /\
  let d2 := pluginStep h d1 (Fire id) in
  timers (timerHost d2) = [] /\
  target d2 = handleEditorChangeOn h e (target d) /\
  (forall e', e' <> e -> editors (target d2) e' = editors (target d) e') /\
  editors (target d2) e
  = editor (onEditorChange h
              {| editor := editors (target d) e;
                 console := workspaceConsole (target d) |}).
Proof.
  intros Hco. cbv zeta.
  assert (H1 : timers (timerHost (fold_left (pluginStep h) (map Call (es ++ [e])) d))
               = [(nextTimer (timerHost d) + length es, e)] /\
               target (fold_left (pluginStep h) (map Call (es ++ [e])) d) = target d).
  { revert d Hco. induction es as [|e0 es IH]; intros d Hco.
    - cbn [app map fold_left pluginStep debounceStep length].
      destruct (debouncedCall_Coalesced e d Hco) as (H1 & _ & H3).
      rewrite Nat.add_0_r. auto.
    - cbn [app map fold_left pluginStep debounceStep length].
      destruct (debouncedCall_Coalesced e0 d Hco) as (H1 & H2 & H3).
      destruct (IH (debouncedCall e0 d)) as [IH1 IH2].
      { right. eauto. }
      rewrite IH1, IH2, H3. split; [|reflexivity].
      assert (Hn : nextTimer (timerHost (debouncedCall e0 d))
                   = S (nextTimer (timerHost d))).
      { unfold debouncedCall, setTimeout, clearTimeout.
        destruct (t d); reflexivity. }
      rewrite Hn. f_equal. f_equal. lia. }
  destruct H1 as [Ht Htg]. split; [exact Ht|]. split; [exact Htg|].
  remember (fold_left (pluginStep h) (map Call (es ++ [e])) d) as d1 eqn:Hd1.
  clear Hd1. unfold pluginStep. cbn [debounceStep]. unfold fireTimer.
  rewrite Ht. cbn [findTimer]. rewrite Nat.eqb_refl.
  cbn [timerHost timers target filter fst]. rewrite Nat.eqb_refl. cbn [negb].
  rewrite Htg. split; [reflexivity|]. split; [reflexivity|]. split.
  - intros e' Hne. unfold handleEditorChangeOn. cbn [editors].
    destruct (e' =? e) eqn:E; [apply Nat.eqb_eq in E; contradiction | reflexivity].
  - unfold handleEditorChangeOn. cbn [editors]. rewrite Nat.eqb_refl. reflexivity.
Qed.

Lemma burst_rewrites_last_editor_witness :
  let ws := {| editors := fun _ => editor (projectWorld 20);
               workspaceConsole := [] |} in
  let d1 := fold_left (pluginStep projectHost) (map Call ([0; 0] ++ [1]))
              (debounce 5 ws) in
  let d2 := pluginStep projectHost d1 (Fire 7) in
  value (editors (target d2) 0) = str "See [[Project]] for details." /\
  value (editors (target d2) 1) = str "See [[areas/work/Project]] for details.".
Proof.
  cbv zeta.
  destruct (burst_rewrites_last_editor projectHost
              (debounce 5 {| editors := fun _ => editor (projectWorld 20);
                             workspaceConsole := [] |})
              [0; 0] 1) as (_ & _ & _ & _ & H1 & H2).
  - left. reflexivity.
  - cbv zeta in H1, H2. cbn [length Nat.add debounce timerHost nextTimer] in H1, H2.
    split.
    + rewrite (H1 0) by lia. reflexivity.
    + rewrite H2. vm_compute. reflexivity.
Defined.

(** ** The settings *)

Lemma getProp_setOwn (o : JsObject) (k k' : text) (v : JsValue) :
  getProp (setOwn o k v) k' = if text_eqb k k' then Some v else getProp o k'.
Proof.
  induction o as [|[k0 x] o IH]; simpl.
  - destruct (text_eqb k k'); reflexivity.
  - destruct (text_eqb k0 k) eqn:E; simpl.
    + apply text_eqb_eq in E. subst k0.
      destruct (text_eqb k k'); reflexivity.
    + rewrite IH. destruct (text_eqb k0 k') eqn:E'; [|reflexivity].
      destruct (text_eqb k k') eqn:E2; [|reflexivity].
      apply text_eqb_eq in E', E2. apply text_eqb_neq in E. congruence.
Qed.

Lemma getProp_setProp (o : JsObject) (k k' : text) (v : JsValue) :
  getProp (setProp o k v) k' =
  if text_eqb k protoKey then getProp o k'
  else if text_eqb k k' then Some v else getProp o k'.
Proof.
  unfold setProp. destruct (text_eqb k protoKey); [reflexivity|].
  apply getProp_setOwn.
Qed.

Lemma getProp_None (o : JsObject) (k : text) :
  getProp o k = None <-> ~ In k (map fst o).
Proof.
  induction o as [|[k0 x] o IH]; simpl; [tauto|].
  destruct (text_eqb k0 k) eqn:E.
  - apply text_eqb_eq in E. split; [discriminate | tauto].
  - apply text_eqb_neq in E. rewrite IH. tauto.
Qed.

Lemma setOwn_keys (o : JsObject) (k k' : text) (v : JsValue) :
  In k' (map fst (setOwn o k v)) <-> k' = k \/ In k' (map fst o).
Proof.
  induction o as [|[k0 x] o IH]; simpl; [intuition auto|].
  destruct (text_eqb k0 k) eqn:E; simpl.
  - apply text_eqb_eq in E. subst k0. intuition auto.
  - rewrite IH. intuition auto.
Qed.

Lemma setOwn_NoDup (o : JsObject) (k : text) (v : JsValue) :
  NoDup (map fst o) -> NoDup (map fst (setOwn o k v)).
Proof.
  induction o as [|[k0 x] o IH]; simpl; intros H.
  - constructor; [intros [] | constructor].
  - inversion H as [|? ? Hn Hd]. subst.
    destruct (text_eqb k0 k) eqn:E; simpl.
    + constructor; assumption.
    + constructor; [|apply IH; exact Hd].
      rewrite setOwn_keys. apply text_eqb_neq in E. intros [-> | Hin]; tauto.
Qed.

Lemma setProp_NoDup (o : JsObject) (k : text) (v : JsValue) :
  NoDup (map fst o) -> NoDup (map fst (setProp o k v)).
Proof.
  intros H. unfold setProp. destruct (text_eqb k protoKey); [exact H|].
  apply setOwn_NoDup. exact H.
Qed.

(** A store never gives the object an own property [__proto__]. *)
Lemma setProp_no_proto (o : JsObject) (k : text) (v : JsValue) :
  getProp o protoKey = None -> getProp (setProp o k v) protoKey = None.
Proof.
  intros H. rewrite getProp_setProp.
  destruct (text_eqb k protoKey); exact H.
Qed.

Lemma assignFrom_NoDup (src tgt : JsObject) :
  NoDup (map fst tgt) -> NoDup (map fst (assignFrom tgt src)).
Proof.
  revert tgt. induction src as [|[k v] src IH]; intros tgt H; [exact H|].
  apply IH. apply setProp_NoDup. exact H.
Qed.

Lemma assignFrom_no_proto (src tgt : JsObject) :
  getProp tgt protoKey = None -> getProp (assignFrom tgt src) protoKey = None.
Proof.
  revert tgt. induction src as [|[k v] src IH]; intros tgt H; [exact H|].
  apply IH. apply setProp_no_proto. exact H.
Qed.

(** A property of the source wins over the one of the target, except for
    the key [__proto__], which the target never gets. *)
Lemma getProp_assignFrom (src tgt : JsObject) (key : text) :
  NoDup (map fst src) ->
  getProp (assignFrom tgt src) key =
  if text_eqb key protoKey then getProp tgt key
  else
    match getProp src key with
    | Some v => Some v
    | None => getProp tgt key
    end.
Proof.
  revert tgt. induction src as [|[k v] src IH]; intros tgt H.
  - cbn [assignFrom fold_left getProp]. destruct (text_eqb key protoKey); reflexivity.
  - inversion H as [|? ? Hn Hd]. subst. cbn [assignFrom fold_left fst snd getProp].
    change (fold_left (fun tgt0 kv => setProp tgt0 (fst kv) (snd kv)) src (setProp tgt k v))
      with (assignFrom (setProp tgt k v) src).
    rewrite (IH _ Hd), getProp_setProp.
    destruct (text_eqb key protoKey) eqn:Ep.
    + apply text_eqb_eq in Ep. subst key.
      destruct (text_eqb k protoKey); reflexivity.
    + destruct (text_eqb k protoKey) eqn:Ek.
      * apply text_eqb_eq in Ek. subst k.
        destruct (text_eqb protoKey key) eqn:E; [|reflexivity].
        apply text_eqb_eq in E. apply text_eqb_neq in Ep. congruence.
      * destruct (text_eqb k key) eqn:E; [|reflexivity].
        apply text_eqb_eq in E. subst k.
        apply getProp_None in Hn. rewrite Hn. reflexivity.
Qed.

(** X15. [loadSettings] merges the saved data over the defaults: a saved
    property wins, a property that was not saved has its default, so the
    setting is on until something else is saved for it. The one exception
    is a saved key [__proto__], which never becomes a property of the
    settings. *)
Theorem loadSettings_merges (data : option JsObject) (key : text) :
  match data with Some o => NoDup (map fst o) | None => True end ->
  getProp (loadSettings data) key =
  if text_eqb key protoKey then None
  else
    match match data with Some o => getProp o key | None => None end with
    | Some v => Some v
    | None => getProp DEFAULT_SETTINGS key
    end.
Proof.
  intros Hwf. unfold loadSettings, objectAssign. cbn [fold_left].
  assert (Hdef : forall k, getProp (assignFrom [] DEFAULT_SETTINGS) k
                           = getProp DEFAULT_SETTINGS k) by reflexivity.
  assert (Hproto : getProp DEFAULT_SETTINGS protoKey = None) by reflexivity.
  destruct data as [o|].
  - rewrite (getProp_assignFrom o _ key Hwf), Hdef.
    destruct (text_eqb key protoKey) eqn:E; [|reflexivity].
    apply text_eqb_eq in E. subst key. exact Hproto.
  - rewrite Hdef. destruct (text_eqb key protoKey) eqn:E; [|reflexivity].
    apply text_eqb_eq in E. subst key. exact Hproto.
Qed.

Lemma loadSettings_merges_witness :
  getProp (loadSettings (Some [(str "theme", JsString (str "dark"));
                               (protoKey, JsString (str "x"))]))
    displayAsShortNameKey
  = Some (JsBool true) /\
  getProp (loadSettings (Some [(str "theme", JsString (str "dark"));
                               (protoKey, JsString (str "x"))]))
    protoKey
  = None.
Proof.
  assert (Hwf : NoDup (map fst [(str "theme", JsString (str "dark"));
                                (protoKey, JsString (str "x"))])).
  { simpl. constructor; [|constructor; [intros [] | constructor]].
    intros [H | []]. vm_compute in H. discriminate. }
  split.
  - exact (loadSettings_merges
             (Some [(str "theme", JsString (str "dark"));
                    (protoKey, JsString (str "x"))])
             displayAsShortNameKey Hwf).
  - exact (loadSettings_merges
             (Some [(str "theme", JsString (str "dark"));
                    (protoKey, JsString (str "x"))])
             protoKey Hwf).
Defined.

Lemma loadSettings_no_proto (data : option JsObject) :
  getProp (loadSettings data) protoKey = None.
Proof.
  unfold loadSettings, objectAssign. cbn [fold_left].
  assert (H : getProp (assignFrom [] DEFAULT_SETTINGS) protoKey = None)
    by reflexivity.
  destruct data as [o|]; [apply assignFrom_no_proto|]; exact H.
Qed.

Lemma loadSettings_NoDup (data : option JsObject) :
  NoDup (map fst (loadSettings data)).
Proof.
  unfold loadSettings, objectAssign. cbn [fold_left].
  assert (H : NoDup (map fst (assignFrom [] DEFAULT_SETTINGS))).
  { apply assignFrom_NoDup. constructor. }
  destruct data as [o|]; [apply assignFrom_NoDup|]; exact H.
Qed.

(** X16. A toggle of the setting survives a restart: after [onChange(v)] the
    setting reads [v], and a later [loadSettings] from the saved data gives
    back every property of the settings, whatever had been saved before. *)
Theorem toggle_survives_reload (data : option JsObject) (v : bool) :
  let '(settings, saved) := onToggle v (loadSettings data) in
  displayAsShortNameOf settings = v /\
  displayAsShortNameOf (loadSettings saved) = v /\
  forall key, getProp (loadSettings saved) key = getProp settings key.
Proof.
  unfold onToggle, saveSettings.
  set (settings := setProp (loadSettings data) displayAsShortNameKey (JsBool v)).
  assert (Hkey : text_eqb displayAsShortNameKey protoKey = false) by reflexivity.
  assert (Hnd : NoDup (map fst settings)).
  { apply setProp_NoDup. apply loadSettings_NoDup. }
  assert (Hget : getProp settings displayAsShortNameKey = Some (JsBool v)).
  { unfold settings. rewrite getProp_setProp, Hkey.
    rewrite (proj2 (text_eqb_eq _ _) eq_refl). reflexivity. }
  assert (Hproto : getProp settings protoKey = None).
  { unfold settings. apply setProp_no_proto. apply loadSettings_no_proto. }
  assert (Hall : forall key, getProp (loadSettings (Some settings)) key
                             = getProp settings key).
  { intros key. unfold loadSettings, objectAssign. cbn [fold_left].
    rewrite (getProp_assignFrom settings _ key Hnd).
    destruct (text_eqb key protoKey) eqn:Ep.
    - apply text_eqb_eq in Ep. subst key. rewrite Hproto. reflexivity.
    - destruct (getProp settings key) as [x|] eqn:E; [reflexivity|].
      change (getProp (assignFrom [] DEFAULT_SETTINGS) key)
        with (getProp DEFAULT_SETTINGS key).
      unfold DEFAULT_SETTINGS. cbn [getProp].
      destruct (text_eqb displayAsShortNameKey key) eqn:Ek; [|reflexivity].
      apply text_eqb_eq in Ek. subst key. congruence. }
  split; [|split; [|exact Hall]].
  - unfold displayAsShortNameOf. rewrite Hget. reflexivity.
  - unfold displayAsShortNameOf. rewrite Hall, Hget. reflexivity.
Qed.

(** ** The rewriter and the concealer together *)

Lemma flat_map_ext_In {A B : Type} (f g : A -> list B) (l : list A) :
  (forall x, In x l -> f x = g x) -> flat_map f l = flat_map g l.
Proof.
  induction l as [|a l IH]; intros H; [reflexivity|].
  simpl. rewrite (H a (or_introl eq_refl)), IH; [reflexivity|].
  intros x Hx. apply H. right. exact Hx.
Qed.

Lemma map_flat_map {A B C : Type} (f : B -> C) (g : A -> list B) (l : list A) :
  map f (flat_map g l) = flat_map (fun x => map f (g x)) l.
Proof.
  induction l as [|a l IH]; [reflexivity|].
  simpl. rewrite map_app, IH. reflexivity.
Qed.

Lemma flat_map_map {A B C : Type} (f : A -> B) (g : B -> list C) (l : list A) :
  flat_map g (map f l) = flat_map (fun x => g (f x)) l.
Proof.
  induction l as [|a l IH]; [reflexivity|].
  simpl. rewrite IH. reflexivity.
Qed.

Lemma slice_whole (s : text) : slice s 0 (length s) = s.
Proof. unfold slice. rewrite Nat.sub_0_r. apply firstn_all. Qed.

(** In a document that is visible as a whole, the concealer hides the folder
    prefixes of the occurrences, in their order. *)
Lemma hiddenTexts_whole (s : text) :
  hiddenTexts (wholeDocument s)
  = flat_map (fun m => folderPrefix (inner m)) (execAll s 0).
Proof.
  unfold hiddenTexts. rewrite buildDecorations_spec.
  cbn [wholeDocument doc visibleRanges flat_map from to].
  rewrite app_nil_r. unfold decorationsOf.
  rewrite map_flat_map.
  transitivity (flat_map (fun m => folderPrefix (inner m))
                  (execAll (slice s 0 (length s)) 0));
    [|rewrite slice_whole; reflexivity].
  apply flat_map_ext_In. intros m Hm.
  unfold decorationFor, folderPrefix.
  destruct (lastIndexOf (inner m) SLASH) as [k|] eqn:Hk.
  - assert (Hi : includes (inner m) SLASH = true).
    { destruct (includes (inner m) SLASH) eqn:E; [reflexivity|].
      apply includes_not_In in E. apply lastIndexOf_None in E. congruence. }
    rewrite Hi. cbn [negb optList map rFrom rTo].
    destruct (lastIndexOf_Some _ _ _ Hk) as (_ & Hlt & _).
    f_equal.
    pose proof (inner_in_doc s {| from := 0; to := length s |} m 0 (S k)) as H.
    cbn [from to] in H.
    replace (0 + index m + 2) with (0 + index m + 2 + 0) at 1 by lia.
    replace (0 + index m + 2 + k + 1) with (0 + index m + 2 + S k) by lia.
    rewrite H; [| exact Hm | lia].
    unfold slice. rewrite Nat.sub_0_r. reflexivity.
  - apply lastIndexOf_None in Hk. apply includes_not_In in Hk.
    rewrite Hk. reflexivity.
Qed.

(** X17. After a rewrite, in a document that is visible as a whole, the
    concealer hides exactly the folders of the canonical paths written for
    the resolved short names and those of the paths left as they were, in
    the order of the occurrences (canonical paths being non-empty and free
    of ']'). *)
Theorem rewrite_then_conceal (h : Host) (activePath original : text)
    (ops : list Replacement) :
  (forall name p, canonicalPath h activePath name = Some p -> validInner p) ->
  collectReplacements h activePath original = Normal ops ->
  hiddenTexts (wholeDocument (newContentOf original ops))
  = flat_map (fun m => folderPrefix (newInner h activePath m))
      (execAll original 0).
Proof.
  intros Hvalid Hc.
  rewrite hiddenTexts_whole.
  rewrite (newContentOf_Ops _ _ (collectReplacements_Ops _ _ _ _ Hc)).
  destruct (rescan h activePath 0 original _ Hvalid
              (execAll_Scanned_0 original) ops Hc 0) as (ms' & Hsc & Hmap).
  pose proof (Scanned_execAll _ _ _ Hsc [] eq_refl) as He.
  cbn [app] in He. rewrite He.
  rewrite <- (flat_map_map inner folderPrefix ms'), Hmap, flat_map_map.
  reflexivity.
Qed.

Lemma rewrite_then_conceal_witness :
  hiddenTexts
    (wholeDocument
       (newContentOf (str "[[Project]] and [[Missing]] or [[a/b]]")
          [{| start := 0; end_ := 11;
              replacement := str "[[areas/work/Project]]" |}]))
  = flat_map (fun m => folderPrefix (newInner projectHost (str "notes/today.md") m))
      (execAll (str "[[Project]] and [[Missing]] or [[a/b]]") 0).
Proof.
  apply (rewrite_then_conceal projectHost (str "notes/today.md")
           (str "[[Project]] and [[Missing]] or [[a/b]]")
           [{| start := 0; end_ := 11;
               replacement := str "[[areas/work/Project]]" |}]).
  - intros name p H. unfold canonicalPath in H. cbn in H.
    unfold projectIndex in H.
    destruct (text_eqb name (str "Project")); [|discriminate].
    injection H as <-. split; [discriminate|].
    vm_compute. intros H. repeat (destruct H as [H|H]; [discriminate|]).
    exact H.
  - reflexivity.
Defined.

Example rewrite_then_conceal_example :
  hiddenTexts (wholeDocument (str "[[areas/work/Project]] and [[Missing]] or [[a/b]]"))
  = [str "areas/work/"; str "a/"].
Proof. vm_compute. reflexivity. Qed.

(** ** Runs that write nothing *)

(** X18. When every occurrence of the document is a full path already or a
    name for which the link index has no regular file, the run changes
    neither the editor nor the console, whatever the editor's calls would
    do: the document is not written and the cursor is not moved. *)
Theorem no_write_without_resolvable_name (h : Host) (w : World) :
  (forall activePath m,
     getActiveFile h = Some activePath ->
     In m (execAll (value (editor w)) 0) ->
     includes (inner m) SLASH = true \/ unresolvable h activePath (inner m)) ->
  onEditorChange h w = w.
Proof.
  intros Hall. rewrite onEditorChange_run.
  destruct (getActiveFile h) as [activePath|]; [|reflexivity].
  assert (Hc : collectReplacements h activePath (value (editor w)) = Normal []).
  { unfold collectReplacements.
    specialize (Hall activePath).
    induction (execAll (value (editor w)) 0) as [|m ms IH]; [reflexivity|].
    rewrite collectFrom_cons.
    assert (Hm : replacementFor h activePath m = Normal None).
    { unfold replacementFor.
      destruct (Hall m eq_refl (or_introl eq_refl)) as [Hi | Hun].
      - rewrite Hi. reflexivity.
      - destruct (includes (inner m) SLASH); [reflexivity|].
        destruct Hun as [-> | [path ->]]; reflexivity. }
    rewrite Hm, IH; [reflexivity|].
    intros m' Hf Hin. apply Hall; [exact Hf | right; exact Hin]. }
  rewrite Hc. reflexivity.
Qed.

Lemma no_write_without_resolvable_name_witness :
  onEditorChange brokenCursorHost
    {| editor := {| value := str "[[areas/work/Project]] and [[Missing]]";
                    cursor := 3 |};
       console := [] |}
  = {| editor := {| value := str "[[areas/work/Project]] and [[Missing]]";
                    cursor := 3 |};
       console := [] |}.
Proof.
  apply (no_write_without_resolvable_name brokenCursorHost).
  intros activePath m _ Hin. vm_compute in Hin.
  destruct Hin as [<- | [<- | []]].
  - left. reflexivity.
  - right. left. reflexivity.
Defined.
